(** * Shelf product detection: colour grouping and aggregation

    A shallow embedding of [extract_color.py] and [detect_product.py].

    Conventions of the embedding.
    - A Python function whose body is wrapped in [try/except Exception]
      and which prints a message and returns [None] on failure is a function
      into [option]: [None] is the Python [None] that follows the message.
    - A dominant colour is the [uint8] array [centers[0]] of shape [(3,)];
      the dictionary keys [tuple(color)] carry the same three [uint8] values.
    - [uint8] arithmetic wraps modulo 256, as NumPy array arithmetic does;
      [np.sum] accumulates in a 64-bit unsigned integer; [np.sqrt] and the
      comparison with [10] are IEEE binary64.
    - Box components are binary64 floats; [int] truncates and raises on an
      infinity or a NaN.
    - [cv2.kmeans], the detector and SQLite are collaborators outside the
      repository: they are parameters of the sections that need them. The
      one-cluster run of [cv2.kmeans] is also given as a function, on float32
      samples. *)

From Stdlib Require Import ZArith QArith Qround Qabs Lia List.
From Stdlib Require Import Floats.SpecFloat.
From stdpp Require Import gmap strings list sorting.

(** ** NumPy scalars *)

Module u8.

Definition modulus : Z := 256.

Definition wrap (z : Z) : Z := (z mod modulus)%Z.

(** [a - b] on [uint8] operands. *)
Definition sub (a b : Z) : Z := wrap (a - b).

(** [a ** 2] on a [uint8] operand: the result type stays [uint8]. *)
Definition pow2 (a : Z) : Z := wrap (a * a).

End u8.

Module f64.

Definition prec : Z := 53.
Definition emax : Z := 1024.

(** Conversion of an integer to binary64 (round to nearest even). *)
Definition of_Z (z : Z) : spec_float := binary_normalize prec emax z 0 false.

Definition sqrt (x : spec_float) : spec_float := SFsqrt prec emax x.

Definition ltb (x y : spec_float) : bool := SFltb x y.

Definition add (x y : spec_float) : spec_float := SFadd prec emax x y.
Definition sub (x y : spec_float) : spec_float := SFsub prec emax x y.
Definition mul (x y : spec_float) : spec_float := SFmul prec emax x y.
Definition div (x y : spec_float) : spec_float := SFdiv prec emax x y.

(** Python's [int(x)] on a float: the fractional part is discarded; an
    infinity or a NaN raises. *)
Definition to_int (x : spec_float) : option Z :=
  match x with
  | S754_zero _ => Some 0%Z
  | S754_finite s m e =>
      let magnitude := Z.shiftl (Z.pos m) e in
      Some (if s then (- magnitude)%Z else magnitude)
  | S754_infinity _ => None
  | S754_nan => None
  end.

Definition half : spec_float := div (of_Z 1) (of_Z 2).

(** The rational number a float stands for (0 for an infinity or a NaN). *)
Definition to_Q (x : spec_float) : Q :=
  match x with
  | S754_finite s m e =>
      let n := if s then Z.neg m else Z.pos m in
      match e with
      | Z0 => inject_Z n
      | Zpos p => inject_Z (n * 2 ^ Z.pos p)
      | Zneg p => n # (2 ^ p)%positive
      end
  | _ => 0%Q
  end.


(** Neither an infinity nor a NaN. *)
Definition finite (x : spec_float) : bool :=
  match x with
  | S754_zero _ | S754_finite _ _ _ => true
  | _ => false
  end.

End f64.

(** binary32, the format of [np.float32] and of OpenCV's [CV_32F]. *)
Module f32.

Definition prec : Z := 24.
Definition emax : Z := 128.

Definition of_Z (z : Z) : spec_float := binary_normalize prec emax z 0 false.

Definition add (x y : spec_float) : spec_float := SFadd prec emax x y.
Definition mul (x y : spec_float) : spec_float := SFmul prec emax x y.
Definition div (x y : spec_float) : spec_float := SFdiv prec emax x y.

(** [np.uint8(x)] on a float32 in range: the fractional part is discarded
    and the integer is kept modulo 256. *)
Definition to_uint8 (x : spec_float) : Z :=
  match x with
  | S754_finite s m e =>
      let magnitude := Z.shiftl (Z.pos m) e in
      u8.wrap (if s then (- magnitude)%Z else magnitude)
  | _ => 0%Z
  end.

End f32.

(** ** Colours *)

Record Color := mkColor { ch0 : Z; ch1 : Z; ch2 : Z }.

#[global] Instance Color_eq_dec : EqDecision Color.
Proof. solve_decision. Defined.

(** [np.sum((color1 - color2) ** 2)]: the difference and the square are
    [uint8] arrays, the sum is a [uint64] (at most [3 * 255]). *)
Definition sum_sq_diff (color1 color2 : Color) : Z :=
  (u8.pow2 (u8.sub (ch0 color1) (ch0 color2))
   + u8.pow2 (u8.sub (ch1 color1) (ch1 color2))
   + u8.pow2 (u8.sub (ch2 color1) (ch2 color2)))%Z.

(** [color_distance]: [None - tuple] raises inside the [try], so a [None]
    colour yields [None]. *)
Definition color_distance (color1 : option Color) (color2 : Color)
  : option spec_float :=
  match color1 with
  | Some c1 => Some (f64.sqrt (f64.of_Z (sum_sq_diff c1 color2)))
  | None => None
  end.

(** The mathematical squared Euclidean distance, for comparison. *)
Definition euclid_sq (a b : Color) : Z :=
  ((ch0 a - ch0 b) * (ch0 a - ch0 b)
   + (ch1 a - ch1 b) * (ch1 a - ch1 b)
   + (ch2 a - ch2 b) * (ch2 a - ch2 b))%Z.

(** ** The insertion-ordered dictionary [color_groups] *)

Record info := mkInfo { index : nat; count : nat }.

Definition groups : Type := list (Color * info).

Definition keys (d : groups) : list Color := d.*1.

(** [d[k]['count'] += 1]; a missing key raises [KeyError]. *)
Fixpoint dict_incr_count (k : Color) (d : groups) : option groups :=
  match d with
  | [] => None
  | (k', v) :: rest =>
      if decide (k' = k)
      then Some ((k', mkInfo (index v) (S (count v))) :: rest)
      else cons (k', v) <$> dict_incr_count k rest
  end.

(** [d[k] = v]: an existing key keeps its place, a new key goes last. *)
Fixpoint dict_set (k : Color) (v : info) (d : groups) : groups :=
  match d with
  | [] => [(k, v)]
  | (k', v') :: rest =>
      if decide (k' = k) then (k', v) :: rest
      else (k', v') :: dict_set k v rest
  end.

(** ** [find_similar_objects] *)

Definition threshold : spec_float := f64.of_Z 10.

(** The inner [for known_color in color_groups.keys()] loop.
    [None]: an exception escaped ([None < 10] is a [TypeError]);
    [Some (Some k)]: left by [break] at key [k];
    [Some None]: the keys were exhausted, [found_similar] is still false. *)
Fixpoint scan_keys (color : option Color) (ks : list Color)
  : option (option Color) :=
  match ks with
  | [] => Some None
  | known_color :: rest =>
      match color_distance color known_color with
      | None => None
      | Some d =>
          if f64.ltb d threshold then Some (Some known_color)
          else scan_keys color rest
      end
  end.

(** One iteration of the outer loop, at position [i]. *)
Definition loop_body (color_groups : groups) (i : nat) (color : option Color)
  : option groups :=
  match scan_keys color (keys color_groups) with
  | None => None
  | Some (Some known_color) => dict_incr_count known_color color_groups
  | Some None =>
      match color with
      | Some c => Some (dict_set c (mkInfo i 1) color_groups)
      | None => None (* [tuple(None)] raises *)
      end
  end.

(** [for i, color in enumerate(dominant_colors)], started at position [i]. *)
Fixpoint enumerate_from (color_groups : groups) (i : nat)
  (dominant_colors : list (option Color)) : option groups :=
  match dominant_colors with
  | [] => Some color_groups
  | color :: rest =>
      match loop_body color_groups i color with
      | None => None
      | Some color_groups' => enumerate_from color_groups' (S i) rest
      end
  end.

Definition find_similar_objects (dominant_colors : list (option Color))
  : option groups :=
  enumerate_from [] 0 dominant_colors.

(** The test [color_distance(color, known_color) < 10] on two colours. *)
Definition similar (color known_color : Color) : bool :=
  f64.ltb (f64.sqrt (f64.of_Z (sum_sq_diff color known_color))) threshold.

(** The key whose group position [j] of the input joins or founds: the
    state is the one reached after the first [j] colours. *)
Definition group_of (dominant_colors : list (option Color)) (j : nat)
  : option Color :=
  match find_similar_objects (take j dominant_colors), dominant_colors !! j with
  | Some color_groups, Some (Some c) =>
      match scan_keys (Some c) (keys color_groups) with
      | Some (Some known_color) => Some known_color
      | Some None => Some c
      | None => None
      end
  | _, _ => None
  end.

Definition total_count (d : groups) : nat := sum_list (count <$> d.*2).

(** Number of input positions assigned to the group keyed by [k]. *)
Definition members (dominant_colors : list (option Color)) (k : Color) : nat :=
  length (List.filter (fun j => bool_decide (group_of dominant_colors j = Some k))
            (seq 0 (length dominant_colors))).

Definition red : Color := mkColor 255 0 0.
Definition green : Color := mkColor 0 255 0.
Definition black : Color := mkColor 0 0 0.

(** binary64 [sqrt] followed by [< 10.0] decides [s < 100] on every value
    the [uint64] sum can take. *)
Definition sqrt_table_ok : bool :=
  forallb (fun n => Bool.eqb (f64.ltb (f64.sqrt (f64.of_Z (Z.of_nat n))) threshold)
                      (Z.of_nat n <? 100)%Z)
    (seq 0 766).


(** ** [extract_bbox_coordinates]

    The box components and the arithmetic are binary64: the format of
    Python floats, and the one in which NumPy 1.x combines the detector's
    float32 scalars with the Python integers [2], [image_width] and
    [image_height]. *)

Definition rect : Type := (Z * Z * Z * Z)%type.

(** The unpacking [x_center, y_center, width, height = yolo_bbox] needs
    exactly four components; [int] raises on an infinity or a NaN. Either
    failure is caught and gives [None]. *)
Definition extract_bbox_coordinates (yolo_bbox : list spec_float)
  (image_width image_height : Z) : option rect :=
  match yolo_bbox with
  | [x_center; y_center; width; height] =>
      let two := f64.of_Z 2 in
      x1 ← f64.to_int (f64.mul (f64.sub x_center (f64.div width two))
                         (f64.of_Z image_width));
      y1 ← f64.to_int (f64.mul (f64.sub y_center (f64.div height two))
                         (f64.of_Z image_height));
      x2 ← f64.to_int (f64.mul (f64.add x_center (f64.div width two))
                         (f64.of_Z image_width));
      y2 ← f64.to_int (f64.mul (f64.add y_center (f64.div height two))
                         (f64.of_Z image_height));
      Some (x1, y1, x2, y2)
  | _ => None
  end.

(** The four floats that [int] is applied to, for a box of four
    components. *)
Definition corner_values (yolo_bbox : list spec_float)
  (image_width image_height : Z) : list spec_float :=
  match yolo_bbox with
  | [x_center; y_center; width; height] =>
      let two := f64.of_Z 2 in
      [f64.mul (f64.sub x_center (f64.div width two)) (f64.of_Z image_width);
       f64.mul (f64.sub y_center (f64.div height two)) (f64.of_Z image_height);
       f64.mul (f64.add x_center (f64.div width two)) (f64.of_Z image_width);
       f64.mul (f64.add y_center (f64.div height two)) (f64.of_Z image_height)]
  | _ => []
  end.

(** *** The corner formula in exact arithmetic, for comparison *)

(** Truncation of a rational toward zero. *)
Definition int_trunc (q : Q) : Z := Z.quot (Qnum q) (Z.pos (Qden q)).

(** [z] is [q] rounded toward zero. *)
Definition rounds_toward_zero (q : Q) (z : Z) : Prop :=
  ((0 <= q)%Q -> (inject_Z z <= q)%Q /\ (q < inject_Z (z + 1))%Q) /\
  ((q <= 0)%Q -> (inject_Z (z - 1) < q)%Q /\ (q <= inject_Z z)%Q).

(** Rounding to the nearest integer (halves away from zero), for contrast. *)
Definition round_nearest (q : Q) : Z :=
  if Qle_bool 0 q then Qfloor (q + (1 # 2)) else Qceiling (q - (1 # 2)).

(** [trunc((cx - w/2) * width)] and the three other corners, computed
    without any rounding before the truncation. *)
Definition exact_corners (cx cy w h : Q) (image_width image_height : Z) : rect :=
  (int_trunc ((cx - w / 2) * inject_Z image_width),
   int_trunc ((cy - h / 2) * inject_Z image_height),
   int_trunc ((cx + w / 2) * inject_Z image_width),
   int_trunc ((cy + h / 2) * inject_Z image_height)).

(** The conversion agrees with the exact formula on the box. *)
Definition matches_exact_formula (cx cy w h : spec_float)
  (image_width image_height : Z) : Prop :=
  extract_bbox_coordinates [cx; cy; w; h] image_width image_height
  = Some (exact_corners (f64.to_Q cx) (f64.to_Q cy) (f64.to_Q w) (f64.to_Q h)
            image_width image_height).

(** ** Images and crops *)

(** An image of shape [(height, width, 3)]. *)
Record Image := mkImage {
  img_height : nat;
  img_width : nat;
  pixel_at : nat -> nat -> Color
}.

(** A bound of a Python slice over [n] items: negative bounds count from
    the end, and every bound is clipped to [0 .. n]. *)
Definition slice_bound (n : nat) (i : Z) : Z :=
  if (i <? 0)%Z then Z.max (i + Z.of_nat n) 0 else Z.min i (Z.of_nat n).

(** The indices selected by [a[start:stop]]. *)
Definition slice_indices (start stop : Z) (n : nat) : list nat :=
  let lo := slice_bound n start in
  let hi := slice_bound n stop in
  seq (Z.to_nat lo) (Z.to_nat (hi - lo)).

(** [image[y1:y2, x1:x2].reshape(-1, 3)]: the pixels of the crop, row by row. *)
Definition cropped_region (image : Image) (x1 y1 x2 y2 : Z) : list Color :=
  flat_map (fun y => List.map (pixel_at image y)
                       (slice_indices x1 x2 (img_width image)))
    (slice_indices y1 y2 (img_height image)).

(** One detection [[class_id, x_center, y_center, width, height]], split as
    the code splits it: [obj_data[0]] and [obj_data[1:]]. *)
Record obj_data := mkObj { obj_class_id : Z; obj_bbox : list spec_float }.

(** The dictionaries built by [colors_extracted]. *)
Record color_result := mkResult {
  class_id : Z;
  result_count : nat;
  result_color : Color
}.

(** The same dictionaries after [replace_class_ids_with_names]. *)
Record named_result := mkNamed {
  class_name : string;
  named_count : nat;
  named_color : Color
}.

(** A row of table [colors_results]. *)
Record row := mkRow {
  row_class_name : string;
  row_quantity : nat;
  row_color : string
}.

(** The table [colors_results]: [None] until it has been created. *)
Definition database : Type := option (list row).

Definition table_rows (db : database) : list row := default [] db.

(** How [process_image] ends: silently, or by one of its messages. *)
Inductive outcome :=
| Done
| UnreadableImage
| DetectionFailed
| ProcessingError.

Section Pipeline.

(** [cv2.kmeans(pixels, 1, ...)] followed by [np.uint8(centers)[0]];
    [None] when the call raises. *)
Variable kmeans_center : list Color -> option Color.

(** [predict_objects]: the detections and the class names, or [None] for the
    pair [(None, None)]. *)
Variable predict_objects : Image -> option (list obj_data * gmap Z string).

(** [str(color)] as stored in the table. *)
Variable str_color : Color -> string.

Definition find_dominant_colors (region : list Color) : option Color :=
  kmeans_center region.

(** The first loop of [colors_extracted]. A failed box conversion returns
    [None], whose unpacking raises: the loop is left at once. A failed colour
    extraction appends [None] and the loop goes on. *)
Fixpoint collect_dominant_colors (image : Image) (objects_data : list obj_data)
  : option (list (option Color)) :=
  match objects_data with
  | [] => Some []
  | obj :: rest =>
      match extract_bbox_coordinates (obj_bbox obj)
              (Z.of_nat (img_width image)) (Z.of_nat (img_height image)) with
      | None => None
      | Some (x1, y1, x2, y2) =>
          let dominant_color :=
            find_dominant_colors (cropped_region image x1 y1 x2 y2) in
          cons dominant_color <$> collect_dominant_colors image rest
      end
  end.

(** The last loop of [colors_extracted], over [color_groups.items()]. *)
Fixpoint compile_results (objects_data : list obj_data) (color_groups : groups)
  : option (list color_result) :=
  match color_groups with
  | [] => Some []
  | (color, inf) :: rest =>
      match objects_data !! index inf with
      | None => None
      | Some obj =>
          cons (mkResult (obj_class_id obj) (count inf) color)
            <$> compile_results objects_data rest
      end
  end.

Definition colors_extracted (image : Image) (objects_data : list obj_data)
  : option (list color_result) :=
  match collect_dominant_colors image objects_data with
  | None => None
  | Some dominant_colors =>
      match find_similar_objects dominant_colors with
      | None => None (* [None.items()] raises *)
      | Some color_groups => compile_results objects_data color_groups
      end
  end.

Definition replace_class_ids_with_names (colors_result : list color_result)
  (class_names : gmap Z string) : list named_result :=
  List.map (fun item =>
              match class_names !! class_id item with
              | Some name => mkNamed name (result_count item) (result_color item)
              | None => mkNamed "Unknown" (result_count item) (result_color item)
              end)
    colors_result.

(** [CREATE TABLE IF NOT EXISTS], then one [INSERT] per item. *)
Definition save_to_database (colors_result_with_names : list named_result)
  (db : database) : database :=
  Some (table_rows db ++
        List.map (fun item => mkRow (class_name item) (named_count item)
                                (str_color (named_color item)))
          colors_result_with_names).

(** [process_image], from the result of [cv2.imread] on; the loaded model
    is part of [predict_objects]. When
    [colors_extracted] returns [None], iterating over it raises in
    [replace_class_ids_with_names] and the outer handler ends the run. *)
Definition process_image (imread_result : option Image) (db : database)
  : database * outcome :=
  match imread_result with
  | None => (db, UnreadableImage)
  | Some image =>
      match predict_objects image with
      | None => (db, DetectionFailed)
      | Some (boxes, class_names) =>
          match colors_extracted image boxes with
          | None => (db, ProcessingError)
          | Some colors_result =>
              let colors_result_with_names :=
                replace_class_ids_with_names colors_result class_names in
              (save_to_database colors_result_with_names db, Done)
          end
      end
  end.

(** A detection whose box converts and whose crop yields a colour. *)
Definition detection_ok (image : Image) (obj : obj_data) : bool :=
  match extract_bbox_coordinates (obj_bbox obj)
          (Z.of_nat (img_width image)) (Z.of_nat (img_height image)) with
  | None => false
  | Some (x1, y1, x2, y2) =>
      bool_decide (is_Some (find_dominant_colors (cropped_region image x1 y1 x2 y2)))
  end.

(** The per-detection policy: failed detections are left out and the
    others are grouped as if the failed ones had never been detected. *)
Definition skips_failed_detections (image : Image) (objects_data : list obj_data)
  : Prop :=
  colors_extracted image objects_data
  = colors_extracted image (List.filter (detection_ok image) objects_data).

End Pipeline.

(** ** Sample data *)

(** The channel-wise mean of a non-empty pixel list, truncated: what the
    single centre of a one-cluster run amounts to. Used to run the model on
    sample images only. *)
Definition mean_center (pixels : list Color) : option Color :=
  match pixels with
  | [] => None
  | _ =>
      let n := Z.of_nat (length pixels) in
      Some (mkColor (Z.quot (fold_right Z.add 0%Z (ch0 <$> pixels)) n)
                    (Z.quot (fold_right Z.add 0%Z (ch1 <$> pixels)) n)
                    (Z.quot (fold_right Z.add 0%Z (ch2 <$> pixels)) n))
  end.

(** A 4 x 4 image: left half red, right half green. *)
Definition sample_image : Image :=
  mkImage 4 4 (fun _ x => if (x <? 2)%nat then red else green).

Definition left_box : obj_data :=
  mkObj 0 [f64.div (f64.of_Z 1) (f64.of_Z 4); f64.half; f64.half; f64.of_Z 1].
Definition short_box : obj_data := mkObj 1 [f64.half; f64.half; f64.half].
Definition empty_box : obj_data :=
  mkObj 2 [f64.half; f64.half; f64.of_Z 0; f64.of_Z 0].

Definition sample_names : gmap Z string := {[ 0%Z := "cat" ]}.

Definition sample_predict (ds : list obj_data) : Image -> option (list obj_data * gmap Z string) :=
  fun _ => Some (ds, sample_names).

Definition sample_str (c : Color) : string := "color".

(** ** The state reached after a prefix of the input *)

(** What holds of the dictionary [color_groups] once the colours [cols]
    have been processed. *)
Record run_inv (cols : list Color) (color_groups : groups) : Prop := mkRunInv {
  inv_nodup : NoDup (keys color_groups);
  inv_total : total_count color_groups = length cols;
  inv_sorted : StronglySorted lt (index <$> color_groups.*2);
  inv_assigned : forall j, j < length cols ->
    exists k, group_of (Some <$> cols) j = Some k /\ k ∈ keys color_groups;
  inv_entry : forall k inf, (k, inf) ∈ color_groups ->
    cols !! index inf = Some k
    /\ group_of (Some <$> cols) (index inf) = Some k
    /\ (forall j, group_of (Some <$> cols) j = Some k -> index inf <= j)
    /\ count inf = members (Some <$> cols) k
}.

(** [count += 1] on one entry. *)
Definition bump (kv : Color * info) : Color * info :=
  (kv.1, mkInfo (index kv.2) (S (count kv.2))).

(** [count += 1] on the entry keyed by [k], every other entry unchanged. *)
Definition bump_at (k : Color) (d : groups) : groups :=
  (fun kv => if decide (kv.1 = k) then bump kv else kv) <$> d.

(** A run with a colour at distance exactly 10 from the first one, and
    others nearer to it. *)
Definition sample_colors : list Color :=
  [black; mkColor 6 8 0; mkColor 9 0 0; mkColor 0 0 3].

(** ** [predict_objects]: packing the detections *)

(** The loop [for box, class_id in zip(boxes_xywhn, class_ids)] of
    [predict_objects]. [zip] stops with the shorter sequence; [box[:4]] is
    unpacked into four values, and a shorter box raises, which the handler
    turns into the pair [(None, None)]. *)
Fixpoint pack_detections (boxes_xywhn : list (list spec_float))
  (class_ids : list Z)
  : option (list obj_data) :=
  match boxes_xywhn, class_ids with
  | box :: boxes, class_id :: ids =>
      match take 4 box with
      | [x_center; y_center; width; height] =>
          cons (mkObj class_id [x_center; y_center; width; height])
            <$> pack_detections boxes ids
      | _ => None
      end
  | _, _ => Some []
  end.

(** ** Notions used to state the properties *)

(** The colour [colors_extracted] computes for one detection. *)
Definition dominant_color_of (kmeans_center : list Color -> option Color)
  (image : Image) (obj : obj_data) : option Color :=
  match extract_bbox_coordinates (obj_bbox obj)
          (Z.of_nat (img_width image)) (Z.of_nat (img_height image)) with
  | None => None
  | Some (x1, y1, x2, y2) =>
      find_dominant_colors kmeans_center (cropped_region image x1 y1 x2 y2)
  end.

(** A later state keeps every entry of an earlier one at its place, with
    the same key and index and a count that has not decreased. *)
Definition extends (gs gs' : groups) : Prop :=
  forall i k inf, gs !! i = Some (k, inf) ->
    exists inf', gs' !! i = Some (k, inf')
                 /\ index inf' = index inf /\ count inf <= count inf'.

Definition result_total (rs : list color_result) : nat :=
  sum_list (result_count <$> rs).


(** The record that the last loop of [colors_extracted] builds from one
    entry of the dictionary. *)
Definition record_of_entry (objects_data : list obj_data)
  (kv : Color * info) (r : color_result) : Prop :=
  result_color r = kv.1 /\ result_count r = count kv.2
  /\ exists obj, objects_data !! index kv.2 = Some obj
                 /\ class_id r = obj_class_id obj.

(** ** The threshold, as worded for any two colours *)

(** Two colours at Euclidean distance exactly 10, at positions [i] and
    [j], are in different groups. *)
Definition apart_10_in_different_groups (cols : list Color) (i j : nat) : Prop :=
  forall a b, cols !! i = Some a -> cols !! j = Some b ->
    euclid_sq a b = 100%Z ->
    group_of (Some <$> cols) i <> group_of (Some <$> cols) j.

(** Two colours at Euclidean distance below 10 are in the same group
    when every other group present is at Euclidean distance 10 or more from
    the second colour. *)
Definition below_10_in_same_group (cols : list Color) (i j : nat) : Prop :=
  forall a b, cols !! i = Some a -> cols !! j = Some b ->
    (euclid_sq a b < 100)%Z ->
    (forall p k, p < j -> group_of (Some <$> cols) p = Some k ->
       group_of (Some <$> cols) i <> Some k -> (100 <= euclid_sq b k)%Z) ->
    group_of (Some <$> cols) i = group_of (Some <$> cols) j.

(** No channel difference reaches 16: no [uint8] square wraps. *)
Definition no_wrap (c k : Color) : Prop :=
  (Z.abs (ch0 c - ch0 k) < 16 /\ Z.abs (ch1 c - ch1 k) < 16
   /\ Z.abs (ch2 c - ch2 k) < 16)%Z.

(** ** [find_dominant_colors] with the one-cluster k-means *)

Section KMeans.

(** The stopping test: the centre moved by less than 0.1. *)
Variable converged : list spec_float -> list spec_float -> bool.

(** The comparison of two attempts: lower within-cluster variance. *)
Variable more_compact : list spec_float -> list spec_float -> bool.

(** [np.float32(image.reshape(-1, 3))] as the samples of the clustering.
    A region of one pixel is a matrix of one row, which is read as three
    samples of one dimension; any other region gives one sample of three
    dimensions per pixel. *)
Definition samples_of (region : list Color) : list (list spec_float) :=
  match region with
  | [p] => [[f32.of_Z (ch0 p)]; [f32.of_Z (ch1 p)]; [f32.of_Z (ch2 p)]]
  | _ => List.map (fun p => [f32.of_Z (ch0 p); f32.of_Z (ch1 p); f32.of_Z (ch2 p)])
           region
  end.

Definition vec_add (u v : list spec_float) : list spec_float :=
  zip_with f32.add u v.

(** The centre of the single cluster: the running float32 sum of the
    samples, scaled by the float32 reciprocal of their number. *)
Definition centroid (samples : list (list spec_float)) : list spec_float :=
  let dims := length (hd [] samples) in
  let total := fold_left vec_add samples (replicate dims (f32.of_Z 0)) in
  let scale := f32.div (f32.of_Z 1) (f32.of_Z (Z.of_nat (length samples))) in
  List.map (fun t => f32.mul t scale) total.

(** One attempt: from an initial centre, recompute the centre until it
    has converged or the iterations are used up. With one cluster every
    sample belongs to it. *)
Fixpoint iterate (fuel : nat) (center : list spec_float)
  (samples : list (list spec_float)) : list spec_float :=
  match fuel with
  | 0 => center
  | S fuel' =>
      let center' := centroid samples in
      if converged center center' then center'
      else iterate fuel' center' samples
  end.

Definition max_iterations : nat := 200.

(** The best of the attempts. *)
Fixpoint best (results : list (list spec_float)) : option (list spec_float) :=
  match results with
  | [] => None
  | r :: rest =>
      match best rest with
      | None => Some r
      | Some r' => Some (if more_compact r' r then r' else r)
      end
  end.

(** Modelled from the spec: [cv2.kmeans] is not under src/. Section 4.2
    gives the one-cluster run: the centre is the mean of all samples, an
    attempt stops after 200 iterations or when the centre moves by less than
    0.1, and the best of the attempts, one per random initial centre, is
    kept. The samples are the float32 values that [find_dominant_colors]
    passes, and the mean is taken in float32. An empty region raises. *)
Definition cv2_kmeans (initial_centers : list (list spec_float))
  (region : list Color) : option (list spec_float) :=
  match region with
  | [] => None
  | _ =>
      best (List.map (fun init => iterate max_iterations init (samples_of region))
              initial_centers)
  end.

(** [find_dominant_colors]: the components of [np.uint8(centers)[0]]. *)
Definition find_dominant_colors_cv2 (initial_centers : list (list spec_float))
  (region : list Color) : option (list Z) :=
  List.map f32.to_uint8 <$> cv2_kmeans initial_centers region.

End KMeans.

(** The float32 mean of a list of channel values. *)
Definition mean32 (values : list Z) : spec_float :=
  f32.mul (fold_left f32.add (f32.of_Z <$> values) (f32.of_Z 0))
    (f32.div (f32.of_Z 1) (f32.of_Z (Z.of_nat (length values)))).

(** The mean of the pixel colours computed exactly, then truncated. *)
Definition truncated_exact_mean (region : list Color) : option (list Z) :=
  (fun c => [ch0 c; ch1 c; ch2 c]) <$> mean_center region.

(** The extraction returns the truncated exact mean. *)
Definition returns_truncated_mean
  (converged more_compact : list spec_float -> list spec_float -> bool)
  (initial_centers : list (list spec_float)) (region : list Color) : Prop :=
  find_dominant_colors_cv2 converged more_compact initial_centers region
  = truncated_exact_mean region.

(** Sample attempts: ten initial centres, a stopping test and a
    comparison. *)
Definition sample_inits : list (list spec_float) :=
  replicate 10 [f32.of_Z 0; f32.of_Z 0; f32.of_Z 0].

Definition sample_inits' : list (list spec_float) :=
  replicate 10 [f32.of_Z 255; f32.of_Z 7; f32.of_Z 128].

Definition sample_converged (c c' : list spec_float) : bool :=
  forallb (fun xy => SFeqb xy.1 xy.2) (combine c c').

Definition sample_more_compact (c c' : list spec_float) : bool := false.

Definition white : Color := mkColor 255 255 255.
(** * Properties of the distance *)

Section Distance.
Local Open Scope Z_scope.

Lemma pow2_range a : 0 <= u8.pow2 a <= 255.
Proof.
  unfold u8.pow2, u8.wrap, u8.modulus.
  pose proof (Z.mod_pos_bound (a * a) 256 eq_refl). lia.
Qed.

Lemma sum_sq_diff_range c k : 0 <= sum_sq_diff c k <= 765.
Proof.
  unfold sum_sq_diff.
  pose proof (pow2_range (u8.sub (ch0 c) (ch0 k))).
  pose proof (pow2_range (u8.sub (ch1 c) (ch1 k))).
  pose proof (pow2_range (u8.sub (ch2 c) (ch2 k))).
  lia.
Qed.

(** Squaring after a wrapped subtraction is the square of the true
    difference, reduced modulo 256. *)
Lemma pow2_sub a b : u8.pow2 (u8.sub a b) = ((a - b) * (a - b)) mod 256.
Proof.
  unfold u8.pow2, u8.sub, u8.wrap, u8.modulus.
  now rewrite <- Z.mul_mod by lia.
Qed.

Lemma sum_sq_diff_unfold c k :
  sum_sq_diff c k =
    ((ch0 c - ch0 k) * (ch0 c - ch0 k)) mod 256
    + ((ch1 c - ch1 k) * (ch1 c - ch1 k)) mod 256
    + ((ch2 c - ch2 k) * (ch2 c - ch2 k)) mod 256.
Proof. unfold sum_sq_diff. now rewrite !pow2_sub. Qed.

Lemma sum_sq_diff_sym c k : sum_sq_diff c k = sum_sq_diff k c.
Proof.
  rewrite !sum_sq_diff_unfold.
  f_equal; [f_equal|]; f_equal; ring.
Qed.

Lemma sum_sq_diff_refl c : sum_sq_diff c c = 0.
Proof.
  rewrite sum_sq_diff_unfold. rewrite !Z.sub_diag. reflexivity.
Qed.

(** Below 256 no channel wraps: the radicand is the Euclidean one. *)
Lemma sum_sq_diff_small a b : euclid_sq a b < 256 -> sum_sq_diff a b = euclid_sq a b.
Proof.
  intros H. rewrite sum_sq_diff_unfold. unfold euclid_sq in *.
  pose proof (Z.square_nonneg (ch0 a - ch0 b)).
  pose proof (Z.square_nonneg (ch1 a - ch1 b)).
  pose proof (Z.square_nonneg (ch2 a - ch2 b)).
  rewrite !Z.mod_small by lia. reflexivity.
Qed.

Lemma sqrt_lt_threshold s :
  0 <= s <= 765 ->
  f64.ltb (f64.sqrt (f64.of_Z s)) threshold = (s <? 100).
Proof.
  intros Hs.
  assert (Ht : sqrt_table_ok = true) by (vm_compute; reflexivity).
  unfold sqrt_table_ok in Ht. rewrite forallb_forall in Ht.
  specialize (Ht (Z.to_nat s)).
  rewrite Z2Nat.id in Ht by lia.
  apply Bool.eqb_prop, Ht, in_seq. lia.
Qed.

Lemma similar_spec c k : similar c k = (sum_sq_diff c k <? 100).
Proof. unfold similar. apply sqrt_lt_threshold, sum_sq_diff_range. Qed.

Lemma similar_refl c : similar c c = true.
Proof. rewrite similar_spec, sum_sq_diff_refl. reflexivity. Qed.

Lemma similar_sym c k : similar c k = similar k c.
Proof. now rewrite !similar_spec, sum_sq_diff_sym. Qed.

End Distance.

(** * The dictionary operations *)

Section Dict.

Lemma dict_set_fresh k v (d : groups) :
  k ∉ keys d -> dict_set k v d = d ++ [(k, v)].
Proof.
  induction d as [|[k' v'] d IH]; simpl; intros Hk; [reflexivity|].
  apply not_elem_of_cons in Hk as [Hne Hk].
  destruct (decide (k' = k)); [congruence|].
  now rewrite IH.
Qed.

Lemma bump_at_absent k (d : groups) : k ∉ keys d -> bump_at k d = d.
Proof.
  induction d as [|[k' v'] d IH]; simpl; intros Hk; [reflexivity|].
  apply not_elem_of_cons in Hk as [Hne Hk].
  unfold bump_at in *. simpl.
  destruct (decide (k' = k)); [congruence|].
  now rewrite IH.
Qed.

Lemma dict_incr_count_spec k (d : groups) :
  NoDup (keys d) -> k ∈ keys d -> dict_incr_count k d = Some (bump_at k d).
Proof.
  induction d as [|[k' v'] d IH]; simpl; intros Hnd Hk.
  - now apply elem_of_nil in Hk.
  - apply NoDup_cons in Hnd as [Hnotin Hnd].
    unfold bump_at; simpl.
    destruct (decide (k' = k)) as [->|Hne].
    + fold (bump_at k d). now rewrite bump_at_absent.
    + apply elem_of_cons in Hk as [Hk|Hk]; [congruence|].
      rewrite IH by assumption. reflexivity.
Qed.

Lemma keys_bump_at k (d : groups) : keys (bump_at k d) = keys d.
Proof.
  unfold keys, bump_at. rewrite <- list_fmap_compose.
  apply list_fmap_ext. intros i [k' v'] _. simpl.
  now destruct (decide (k' = k)).
Qed.

Lemma indices_bump_at k (d : groups) :
  index <$> (bump_at k d).*2 = index <$> d.*2.
Proof.
  unfold bump_at. rewrite <- !list_fmap_compose.
  apply list_fmap_ext. intros i [k' v'] _. simpl.
  now destruct (decide (k' = k)).
Qed.

Lemma total_count_cons k v (d : groups) :
  total_count ((k, v) :: d) = count v + total_count d.
Proof. reflexivity. Qed.

Lemma bump_at_cons k kv (d : groups) :
  bump_at k (kv :: d) = (if decide (kv.1 = k) then bump kv else kv) :: bump_at k d.
Proof. reflexivity. Qed.

Lemma total_count_bump_at k (d : groups) :
  NoDup (keys d) -> k ∈ keys d ->
  total_count (bump_at k d) = S (total_count d).
Proof.
  induction d as [|[k' v'] d IH]; intros Hnd Hk.
  - now apply elem_of_nil in Hk.
  - apply NoDup_cons in Hnd as [Hnotin Hnd].
    rewrite bump_at_cons. simpl.
    destruct (decide (k' = k)) as [->|Hne].
    + rewrite bump_at_absent by assumption. unfold bump.
      rewrite !total_count_cons. simpl. lia.
    + apply elem_of_cons in Hk as [Hk|Hk]; [simpl in Hk; congruence|].
      rewrite !total_count_cons, IH by assumption. lia.
Qed.

Lemma elem_of_bump_at k k' v' (d : groups) :
  (k', v') ∈ bump_at k d ->
  (k' <> k /\ (k', v') ∈ d)
  \/ (k' = k /\ exists v, (k, v) ∈ d /\ v' = mkInfo (index v) (S (count v))).
Proof.
  unfold bump_at. intros Hin.
  apply list_elem_of_fmap in Hin as ([k0 v0] & Heq & Hin). simpl in Heq.
  destruct (decide (k0 = k)) as [->|Hne].
  - unfold bump in Heq. simpl in Heq. injection Heq as -> ->.
    right. split; [reflexivity|]. now exists v0.
  - injection Heq as -> ->. now left.
Qed.

Lemma total_count_snoc (d : groups) k v :
  total_count (d ++ [(k, v)]) = total_count d + count v.
Proof.
  unfold total_count. rewrite !fmap_app, sum_list_with_app. simpl. lia.
Qed.

End Dict.

(** * The grouping loop *)

Section Grouping.

Implicit Types (cols : list Color) (c k : Color) (gs : groups).

Lemma scan_keys_find c (ks : list Color) :
  scan_keys (Some c) ks = Some (List.find (similar c) ks).
Proof.
  induction ks as [|k ks IH]; simpl; [reflexivity|].
  unfold similar. now destruct (f64.ltb _ threshold).
Qed.

Lemma loop_body_Some gs i c :
  loop_body gs i (Some c) =
    match List.find (similar c) (keys gs) with
    | Some k => dict_incr_count k gs
    | None => Some (dict_set c (mkInfo i 1) gs)
    end.
Proof. unfold loop_body. rewrite scan_keys_find. now destruct (List.find _ _). Qed.

Lemma enumerate_from_app gs i (l l' : list (option Color)) :
  enumerate_from gs i (l ++ l') =
    match enumerate_from gs i l with
    | Some gs' => enumerate_from gs' (i + length l) l'
    | None => None
    end.
Proof.
  revert gs i. induction l as [|x l IH]; intros gs i; simpl.
  - now rewrite Nat.add_0_r.
  - destruct (loop_body gs i x) as [gs'|]; [|reflexivity].
    rewrite IH. now rewrite Nat.add_succ_r.
Qed.

Lemma find_similar_objects_snoc (l : list (option Color)) x :
  find_similar_objects (l ++ [x]) =
    match find_similar_objects l with
    | Some gs => loop_body gs (length l) x
    | None => None
    end.
Proof.
  unfold find_similar_objects. rewrite enumerate_from_app.
  destruct (enumerate_from [] 0 l) as [gs|]; [|reflexivity].
  simpl. now destruct (loop_body gs (length l) x).
Qed.

Lemma group_of_app_l (l l' : list (option Color)) j :
  j < length l -> group_of (l ++ l') j = group_of l j.
Proof.
  intros Hj. unfold group_of.
  rewrite take_app_le by lia. now rewrite lookup_app_l by lia.
Qed.

Lemma group_of_last cols c gs :
  find_similar_objects (Some <$> cols) = Some gs ->
  group_of (Some <$> (cols ++ [c])) (length cols)
  = Some (default c (List.find (similar c) (keys gs))).
Proof.
  intros Hrun. unfold group_of. rewrite fmap_app.
  rewrite take_app_length' by now rewrite length_fmap.
  rewrite Hrun. simpl.
  rewrite list_lookup_middle by now rewrite length_fmap.
  rewrite scan_keys_find. now destruct (List.find _ _).
Qed.

Lemma group_of_lt (l : list (option Color)) j k :
  group_of l j = Some k -> j < length l.
Proof.
  unfold group_of. intros H.
  destruct (find_similar_objects (take j l)); [|discriminate].
  destruct (l !! j) eqn:Hl; [|discriminate].
  now apply lookup_lt_Some in Hl.
Qed.

Lemma members_snoc cols c k :
  members (Some <$> (cols ++ [c])) k =
    members (Some <$> cols) k
    + (if bool_decide (group_of (Some <$> (cols ++ [c])) (length cols) = Some k)
       then 1 else 0).
Proof.
  unfold members. rewrite !length_fmap, length_app. simpl.
  rewrite Nat.add_1_r, seq_S, List.filter_app, length_app. simpl.
  f_equal.
  - f_equal. apply List.filter_ext_in. intros j Hj.
    apply in_seq in Hj. rewrite fmap_app.
    rewrite group_of_app_l by (rewrite length_fmap; lia). reflexivity.
  - now destruct (bool_decide _).
Qed.

Lemma filter_none {A} (f : A -> bool) (l : list A) :
  (forall x, In x l -> f x = false) -> List.filter f l = [].
Proof.
  induction l as [|x l IH]; simpl; intros H; [reflexivity|].
  rewrite (H x) by now left. apply IH. intros y Hy. apply H. now right.
Qed.

Lemma members_zero (l : list (option Color)) k :
  (forall j, j < length l -> group_of l j <> Some k) -> members l k = 0.
Proof.
  intros H. unfold members. rewrite filter_none; [reflexivity|].
  intros j Hj. apply in_seq in Hj.
  apply bool_decide_eq_false. apply H. lia.
Qed.

(** Entries of the state carry positions of the processed prefix. *)
Lemma run_inv_index_lt cols gs k inf :
  run_inv cols gs -> (k, inf) ∈ gs -> index inf < length cols.
Proof.
  intros Hinv Hin. destruct (inv_entry _ _ Hinv k inf Hin) as (Hl & _).
  now apply lookup_lt_Some in Hl.
Qed.

Lemma run_inv_key cols gs j k :
  run_inv cols gs -> group_of (Some <$> cols) j = Some k -> k ∈ keys gs.
Proof.
  intros Hinv Hg.
  assert (Hj : j < length cols).
  { apply group_of_lt in Hg. now rewrite length_fmap in Hg. }
  destruct (inv_assigned _ _ Hinv j Hj) as (k' & Hk' & Hin). congruence.
Qed.

Lemma group_of_snoc_lt cols c j :
  j < length cols ->
  group_of (Some <$> (cols ++ [c])) j = group_of (Some <$> cols) j.
Proof.
  intros Hj. rewrite fmap_app. apply group_of_app_l. now rewrite length_fmap.
Qed.

(** An entry that the step leaves alone keeps its four properties. *)
Lemma entry_kept cols c gs k inf k_last :
  run_inv cols gs -> (k, inf) ∈ gs ->
  group_of (Some <$> (cols ++ [c])) (length cols) = Some k_last ->
  k_last <> k ->
  (cols ++ [c]) !! index inf = Some k
  /\ group_of (Some <$> (cols ++ [c])) (index inf) = Some k
  /\ (forall j, group_of (Some <$> (cols ++ [c])) j = Some k -> index inf <= j)
  /\ count inf = members (Some <$> (cols ++ [c])) k.
Proof.
  intros Hinv Hin Hlast Hne.
  pose proof (run_inv_index_lt _ _ _ _ Hinv Hin) as Hlt.
  destruct (inv_entry _ _ Hinv k inf Hin) as (Hl & Hg & Hmin & Hcnt).
  repeat split.
  - now apply lookup_app_l_Some.
  - now rewrite group_of_snoc_lt.
  - intros j Hj. destruct (decide (j < length cols)) as [Hjl|Hjl]; [|lia].
    apply Hmin. now rewrite <- (group_of_snoc_lt cols c).
  - rewrite members_snoc, Hlast.
    rewrite bool_decide_eq_false_2 by congruence. lia.
Qed.

(** The entry that the step increments. *)
Lemma entry_bumped cols c gs k inf :
  run_inv cols gs -> (k, inf) ∈ gs ->
  group_of (Some <$> (cols ++ [c])) (length cols) = Some k ->
  (cols ++ [c]) !! index inf = Some k
  /\ group_of (Some <$> (cols ++ [c])) (index inf) = Some k
  /\ (forall j, group_of (Some <$> (cols ++ [c])) j = Some k -> index inf <= j)
  /\ S (count inf) = members (Some <$> (cols ++ [c])) k.
Proof.
  intros Hinv Hin Hlast.
  pose proof (run_inv_index_lt _ _ _ _ Hinv Hin) as Hlt.
  destruct (inv_entry _ _ Hinv k inf Hin) as (Hl & Hg & Hmin & Hcnt).
  repeat split.
  - now apply lookup_app_l_Some.
  - now rewrite group_of_snoc_lt.
  - intros j Hj. destruct (decide (j < length cols)) as [Hjl|Hjl]; [|lia].
    apply Hmin. now rewrite <- (group_of_snoc_lt cols c).
  - rewrite members_snoc, Hlast.
    rewrite bool_decide_eq_true_2 by reflexivity. lia.
Qed.

Lemma assigned_snoc cols c gs (ks : list Color) k_last :
  run_inv cols gs ->
  group_of (Some <$> (cols ++ [c])) (length cols) = Some k_last ->
  k_last ∈ ks -> (forall k, k ∈ keys gs -> k ∈ ks) ->
  forall j, j < length (cols ++ [c]) ->
    exists k, group_of (Some <$> (cols ++ [c])) j = Some k /\ k ∈ ks.
Proof.
  intros Hinv Hlast Hin Hsub j Hj. rewrite length_app in Hj. simpl in Hj.
  destruct (decide (j < length cols)) as [Hjl|Hjl].
  - destruct (inv_assigned _ _ Hinv j Hjl) as (k & Hk & Hkin).
    exists k. rewrite group_of_snoc_lt by assumption. auto.
  - replace j with (length cols) by lia. eauto.
Qed.

(** The step that joins an existing group. *)
Lemma step_join cols c gs k :
  run_inv cols gs ->
  List.find (similar c) (keys gs) = Some k ->
  find_similar_objects (Some <$> cols) = Some gs ->
  run_inv (cols ++ [c]) (bump_at k gs).
Proof.
  intros Hinv Hfind Hrun.
  assert (Hk : k ∈ keys gs).
  { apply List.find_some in Hfind as [Hin _]. now apply list_elem_of_In. }
  pose proof (group_of_last cols c gs Hrun) as Hlast.
  rewrite Hfind in Hlast. simpl in Hlast.
  constructor.
  - rewrite keys_bump_at. apply Hinv.
  - rewrite total_count_bump_at by (auto; apply Hinv).
    rewrite (inv_total _ _ Hinv), length_app. simpl. lia.
  - rewrite indices_bump_at. apply Hinv.
  - rewrite keys_bump_at. apply (assigned_snoc cols c gs (keys gs) k); auto.
  - intros k' v' Hin. apply elem_of_bump_at in Hin as [[Hne Hin]|[-> (v & Hin & ->)]].
    + apply (entry_kept cols c gs k' v' k); auto.
    + simpl. now apply (entry_bumped cols c gs).
Qed.

(** The step that founds a group. *)
Lemma step_found cols c gs :
  run_inv cols gs ->
  List.find (similar c) (keys gs) = None ->
  find_similar_objects (Some <$> cols) = Some gs ->
  (c ∉ keys gs) /\ run_inv (cols ++ [c]) (gs ++ [(c, mkInfo (length cols) 1)]).
Proof.
  intros Hinv Hfind Hrun.
  assert (Hc : c ∉ keys gs).
  { intros Hin. apply list_elem_of_In in Hin.
    pose proof (List.find_none _ _ Hfind c Hin) as Hs.
    rewrite similar_refl in Hs. discriminate. }
  split; [assumption|].
  pose proof (group_of_last cols c gs Hrun) as Hlast.
  rewrite Hfind in Hlast. simpl in Hlast.
  assert (Hkeys : keys (gs ++ [(c, mkInfo (length cols) 1)]) = keys gs ++ [c]).
  { unfold keys. now rewrite fmap_app. }
  constructor.
  - rewrite Hkeys. apply NoDup_app. split; [apply Hinv|]. split.
    + intros x Hx Hx'. apply list_elem_of_singleton in Hx'. congruence.
    + apply NoDup_singleton.
  - rewrite total_count_snoc, (inv_total _ _ Hinv), length_app. reflexivity.
  - rewrite !fmap_app. simpl. apply StronglySorted_app_2.
    + intros x1 x2 Hx1 Hx2. apply list_elem_of_singleton in Hx2. subst x2.
      apply list_elem_of_fmap in Hx1 as (v & -> & Hv).
      apply list_elem_of_fmap in Hv as ([k0 v0] & Heq & Hv). simpl in Heq. subst v0.
      now apply (run_inv_index_lt cols gs k0 v).
    + apply Hinv.
    + repeat constructor.
  - rewrite Hkeys. apply (assigned_snoc cols c gs (keys gs ++ [c]) c); auto.
    + apply elem_of_app. right. now apply list_elem_of_singleton.
    + intros k Hk. apply elem_of_app. now left.
  - intros k' v' Hin. apply elem_of_app in Hin as [Hin|Hin].
    + apply (entry_kept cols c gs k' v' c); auto.
      intros ->. apply Hc. unfold keys.
      apply list_elem_of_fmap. now exists (k', v').
    + apply list_elem_of_singleton in Hin. injection Hin as -> ->. simpl.
      repeat split.
      * now apply list_lookup_middle.
      * assumption.
      * intros j Hj. destruct (decide (j < length cols)) as [Hjl|Hjl]; [|lia].
        rewrite group_of_snoc_lt in Hj by assumption.
        exfalso. apply Hc. now apply (run_inv_key cols gs j).
      * rewrite members_snoc, Hlast.
        rewrite bool_decide_eq_true_2 by reflexivity.
        rewrite members_zero; [reflexivity|].
        intros j Hj Hg. apply Hc. now apply (run_inv_key cols gs j).
Qed.

(** The step, in one equation: what [loop_body] returns on a colour. *)
Lemma loop_body_run cols c gs :
  run_inv cols gs ->
  loop_body gs (length cols) (Some c) =
    Some (match List.find (similar c) (keys gs) with
          | Some k => bump_at k gs
          | None => gs ++ [(c, mkInfo (length cols) 1)]
          end).
Proof.
  intros Hinv. rewrite loop_body_Some.
  destruct (List.find (similar c) (keys gs)) as [k|] eqn:Hfind.
  - apply dict_incr_count_spec; [apply Hinv|].
    apply List.find_some in Hfind as [Hin _]. now apply list_elem_of_In.
  - f_equal. apply dict_set_fresh.
    intros Hin. apply list_elem_of_In in Hin.
    pose proof (List.find_none _ _ Hfind c Hin) as Hs.
    rewrite similar_refl in Hs. discriminate.
Qed.

(** The function returns a dictionary on every input without [None], and
    the dictionary satisfies the invariant. *)
Lemma run_total cols :
  exists gs, find_similar_objects (Some <$> cols) = Some gs /\ run_inv cols gs.
Proof.
  induction cols as [|c cols (gs & Hrun & Hinv)] using rev_ind.
  - exists []. split; [reflexivity|].
    constructor.
    + apply NoDup_nil_2.
    + reflexivity.
    + constructor.
    + intros j Hj. simpl in Hj. lia.
    + intros k inf Hin. now apply elem_of_nil in Hin.
  - rewrite fmap_app. simpl. rewrite find_similar_objects_snoc, Hrun.
    rewrite length_fmap, (loop_body_run cols c gs Hinv).
    eexists; split; [reflexivity|].
    destruct (List.find (similar c) (keys gs)) as [k|] eqn:Hfind.
    + now apply step_join.
    + now apply step_found.
Qed.

End Grouping.

Lemma members_pos (l : list (option Color)) j k :
  group_of l j = Some k -> 1 <= members l k.
Proof.
  intros Hg. pose proof (group_of_lt l j k Hg) as Hj. unfold members.
  assert (Hin : In j (List.filter
                        (fun j => bool_decide (group_of l j = Some k))
                        (seq 0 (length l)))).
  { apply List.filter_In. split; [apply in_seq; lia|].
    now apply bool_decide_eq_true. }
  destruct (List.filter _ _); [destruct Hin | simpl; lia].
Qed.

Lemma find_first_split {A} (f : A -> bool) (l : list A) x :
  List.find f l = Some x ->
  exists pre post, l = pre ++ x :: post
                   /\ Forall (fun y => f y = false) pre /\ f x = true.
Proof.
  induction l as [|y l IH]; simpl; [discriminate|].
  destruct (f y) eqn:Hy.
  - intros [= ->]. exists [], l. auto.
  - intros Hfind. destruct (IH Hfind) as (pre & post & -> & Hpre & Hx).
    exists (y :: pre), post. auto.
Qed.

Lemma find_none_Forall {A} (f : A -> bool) (l : list A) :
  List.find f l = None -> Forall (fun y => f y = false) l.
Proof.
  induction l as [|y l IH]; simpl; [constructor|].
  destruct (f y) eqn:Hy; [discriminate|]. auto.
Qed.

(** The last loop of [colors_extracted] succeeds when every stored index
    addresses a detection. *)
Lemma compile_results_total (objects_data : list obj_data) (gs : groups) :
  (forall k inf, (k, inf) ∈ gs -> index inf < length objects_data) ->
  is_Some (compile_results objects_data gs).
Proof.
  induction gs as [|[k inf] gs IH]; simpl; intros Hidx; [eauto|].
  destruct (lookup_lt_is_Some_2 objects_data (index inf)) as [obj ->].
  { apply (Hidx k). apply elem_of_cons. now left. }
  destruct IH as [rs ->]; [|simpl; eauto].
  intros k' inf' Hin. apply (Hidx k'). apply elem_of_cons. now right.
Qed.

(** ** The claims on [find_similar_objects] *)

(** C1. On every colour sequence without [None], [find_similar_objects]
    returns groups that partition the input: the counts add up to the
    length of the input, no key occurs twice, every position is assigned the
    key of a group, and each group's count is the number of positions assigned
    to its key. *)
Theorem C1_groups_partition_the_input (cols : list Color) :
  exists gs,
    find_similar_objects (Some <$> cols) = Some gs
    /\ total_count gs = length cols
    /\ NoDup (keys gs)
    /\ (forall j, j < length cols ->
          exists k, group_of (Some <$> cols) j = Some k /\ k ∈ keys gs)
    /\ (forall k inf, (k, inf) ∈ gs -> count inf = members (Some <$> cols) k).
Proof.
  destruct (run_total cols) as (gs & Hrun & Hinv).
  exists gs. split; [assumption|].
  split; [apply Hinv|]. split; [apply Hinv|]. split; [apply Hinv|].
  intros k inf Hin. now destruct (inv_entry _ _ Hinv k inf Hin) as (_ & _ & _ & ?).
Qed.

(** C10. Every group returned by [find_similar_objects] has as key the
    input colour at its stored index, an index inside the input, and a count
    of at least one; the index is the first position assigned to the group,
    so a detection list as long as the input has an entry at that index and
    the last loop of [colors_extracted] succeeds on it. *)
Theorem C10_group_entry_wellformed (cols : list Color) (gs : groups)
  (k : Color) (inf : info) :
  find_similar_objects (Some <$> cols) = Some gs ->
  (k, inf) ∈ gs ->
  cols !! index inf = Some k
  /\ index inf < length cols
  /\ 1 <= count inf
  /\ group_of (Some <$> cols) (index inf) = Some k
  /\ (forall j, j < index inf -> group_of (Some <$> cols) j <> Some k)
  /\ (forall objects_data : list obj_data,
        length objects_data = length cols ->
        is_Some (objects_data !! index inf)
        /\ is_Some (compile_results objects_data gs)).
Proof.
  intros Hrun Hin.
  destruct (run_total cols) as (gs' & Hrun' & Hinv).
  assert (gs' = gs) as -> by congruence.
  destruct (inv_entry _ _ Hinv k inf Hin) as (Hl & Hg & Hmin & Hcnt).
  pose proof (lookup_lt_Some _ _ _ Hl) as Hlt.
  split; [assumption|]. split; [assumption|].
  split; [|split; [assumption|split]].
  - rewrite Hcnt. now apply (members_pos _ (index inf)).
  - intros j Hj Hgj. apply Hmin in Hgj. lia.
  - intros objects_data Hlen. split.
    + apply lookup_lt_is_Some. lia.
    + apply compile_results_total. intros k' inf' Hin'. rewrite Hlen.
      now apply (run_inv_index_lt cols gs k' inf').
Qed.

(** The second group of the sample run. *)
Lemma C10_group_entry_wellformed_witness :
  sample_colors !! 1 = Some (mkColor 6 8 0) /\ 1 < length sample_colors.
Proof.
  destruct (C10_group_entry_wellformed sample_colors
              [(black, mkInfo 0 3); (mkColor 6 8 0, mkInfo 1 1)]
              (mkColor 6 8 0) (mkInfo 1 1)) as (H1 & H2 & _).
  - vm_compute. reflexivity.
  - apply elem_of_cons. right. apply elem_of_cons. now left.
  - split; [exact H1 | exact H2].
Defined.

(** The loop is greedy first match on the code's own test. After any
    processed prefix the keys are listed by increasing founding index; the
    next colour is compared with the keys in that order and joins the first
    one for which [color_distance(color, known_color) < 10] as the code
    computes it, which increments that entry's count and changes neither any
    key nor any index; when no key passes, a new entry keyed by the colour is
    appended with the current position and count 1. Every key is the input
    colour at its entry's index. *)
Theorem greedy_first_match_on_code_test (cols : list Color) (c : Color) :
  exists gs gs',
    find_similar_objects (Some <$> cols) = Some gs
    /\ find_similar_objects (Some <$> (cols ++ [c])) = Some gs'
    /\ StronglySorted lt (index <$> gs.*2)
    /\ ((exists pre k post,
           keys gs = pre ++ k :: post
           /\ Forall (fun k' => similar c k' = false) pre
           /\ similar c k = true
           /\ gs' = bump_at k gs
           /\ keys gs' = keys gs
           /\ index <$> gs'.*2 = index <$> gs.*2)
        \/ (Forall (fun k' => similar c k' = false) (keys gs)
            /\ gs' = gs ++ [(c, mkInfo (length cols) 1)]))
    /\ (forall k inf, (k, inf) ∈ gs' -> (cols ++ [c]) !! index inf = Some k).
Proof.
  destruct (run_total cols) as (gs & Hrun & Hinv).
  destruct (run_total (cols ++ [c])) as (gs' & Hrun' & Hinv').
  exists gs, gs'. split; [assumption|]. split; [assumption|].
  split; [apply Hinv|]. split.
  - rewrite fmap_app in Hrun'. simpl in Hrun'.
    rewrite find_similar_objects_snoc, Hrun, length_fmap in Hrun'.
    rewrite (loop_body_run cols c gs Hinv) in Hrun'.
    destruct (List.find (similar c) (keys gs)) as [k|] eqn:Hfind.
    + left. destruct (find_first_split _ _ _ Hfind) as (pre & post & Hk & Hpre & Hs).
      exists pre, k, post. injection Hrun' as <-.
      rewrite keys_bump_at, indices_bump_at. auto 10.
    + right. injection Hrun' as <-. split; [|reflexivity].
      now apply find_none_Forall.
  - intros k inf Hin. now destruct (inv_entry _ _ Hinv' k inf Hin) as (? & _).
Qed.

(** C5. The colour is not always assigned to the first representative at
    Euclidean distance below 10. On black, (20,0,0), (16,0,0) the third
    colour is at Euclidean distance 4 from the second and 16 from black, yet
    it joins black: the [uint8] square of 16 wraps to 0 and
    [color_distance] returns 0. On red, green the second colour joins red at
    Euclidean distance above 360. *)
Theorem C5_first_match_follows_wrapped_distance :
  find_similar_objects [Some black; Some (mkColor 20 0 0); Some (mkColor 16 0 0)]
  = Some [(black, mkInfo 0 2); (mkColor 20 0 0, mkInfo 1 1)]
  /\ group_of [Some black; Some (mkColor 20 0 0); Some (mkColor 16 0 0)] 2
     = Some black
  /\ euclid_sq (mkColor 16 0 0) black = 256%Z
  /\ euclid_sq (mkColor 16 0 0) (mkColor 20 0 0) = 16%Z
  /\ color_distance (Some (mkColor 16 0 0)) black = Some (S754_zero false)
  /\ find_similar_objects [Some red; Some green] = Some [(red, mkInfo 0 2)]
  /\ euclid_sq green red = 130050%Z.
Proof.
  split; [|split; [|split; [|split; [|split; [|split]]]]];
    vm_compute; reflexivity.
Qed.

(** ** The threshold *)

Lemma euclid_sq_sym a b : euclid_sq a b = euclid_sq b a.
Proof. unfold euclid_sq. ring. Qed.

(** At Euclidean distance exactly 10 the test fails. *)
Lemma similar_at_10 a b : euclid_sq a b = 100%Z -> similar b a = false.
Proof.
  intros H. rewrite similar_spec, sum_sq_diff_small; rewrite <- euclid_sq_sym, H; reflexivity.
Qed.

(** At Euclidean distance below 10 the test succeeds. *)
Lemma similar_below_10 a b : (euclid_sq a b < 100)%Z -> similar b a = true.
Proof.
  intros H. rewrite similar_spec, sum_sq_diff_small; rewrite <- euclid_sq_sym.
  - now apply Z.ltb_lt.
  - lia.
Qed.

Lemma group_of_take (cols : list Color) j p :
  p < j -> j <= length cols ->
  group_of (Some <$> take j cols) p = group_of (Some <$> cols) p.
Proof.
  intros Hp Hj.
  rewrite <- (take_drop j cols) at 2. rewrite fmap_app.
  rewrite group_of_app_l; [reflexivity|].
  rewrite length_fmap, length_take. lia.
Qed.

Lemma group_of_eq (cols : list Color) j b gs :
  cols !! j = Some b ->
  find_similar_objects (Some <$> take j cols) = Some gs ->
  group_of (Some <$> cols) j = Some (default b (List.find (similar b) (keys gs))).
Proof.
  intros Hb Hrun. unfold group_of.
  rewrite <- fmap_take, Hrun, list_lookup_fmap, Hb. simpl.
  rewrite scan_keys_find. now destruct (List.find _ _).
Qed.

(** The key found first is the wanted one, or an entry founded earlier. *)
Lemma find_first_sorted (f : Color -> bool) (gs : groups) k a :
  StronglySorted lt (index <$> gs.*2) ->
  List.find f (keys gs) = Some k -> a ∈ keys gs -> f a = true ->
  k = a \/ exists inf_k inf_a,
             (k, inf_k) ∈ gs /\ (a, inf_a) ∈ gs /\ index inf_k < index inf_a.
Proof.
  induction gs as [|[k0 v0] gs IH]; simpl; intros Hs Hfind Ha Hfa.
  - discriminate.
  - apply StronglySorted_cons in Hs as [Hall Hs].
    apply elem_of_cons in Ha.
    destruct (f k0) eqn:Hk0.
    + injection Hfind as <-. destruct Ha as [Ha|Ha]; [now left|right].
      apply list_elem_of_fmap in Ha as ([a' inf_a] & Ha' & Hin). simpl in Ha'. subst a'.
      exists v0, inf_a. split; [apply elem_of_cons; now left|].
      split; [apply elem_of_cons; now right|].
      rewrite Forall_forall in Hall. apply Hall.
      apply list_elem_of_fmap. exists inf_a. split; [reflexivity|].
      apply list_elem_of_fmap. now exists (a, inf_a).
    + destruct Ha as [Ha|Ha]; [congruence|].
      destruct (IH Hs Hfind Ha Hfa) as [?|(inf_k & inf_a & H1 & H2 & H3)]; [now left|right].
      exists inf_k, inf_a. split; [apply elem_of_cons; now right|].
      split; [apply elem_of_cons; now right|assumption].
Qed.

Lemma no_wrap_sum_sq_diff c k : no_wrap c k -> sum_sq_diff c k = euclid_sq c k.
Proof.
  intros (H0 & H1 & H2). rewrite sum_sq_diff_unfold. unfold euclid_sq.
  rewrite !Z.mod_small; [reflexivity|nia..].
Qed.

Lemma elem_of_bump_at_other k k' v (d : groups) :
  k' <> k -> (k', v) ∈ d -> (k', v) ∈ bump_at k d.
Proof.
  intros Hne Hin. unfold bump_at. apply list_elem_of_fmap.
  exists (k', v). split; [|assumption]. simpl.
  now destruct (decide (k' = k)).
Qed.

(** The state after position [j] is the step on the state before it. *)
Lemma run_step (cols : list Color) j b gs :
  cols !! j = Some b ->
  find_similar_objects (Some <$> take j cols) = Some gs ->
  find_similar_objects (Some <$> take (S j) cols)
  = Some (match List.find (similar b) (keys gs) with
          | Some k => bump_at k gs
          | None => gs ++ [(b, mkInfo j 1)]
          end).
Proof.
  intros Hb Hrun.
  destruct (run_total (take j cols)) as (gs0 & Hrun0 & Hinv).
  assert (gs0 = gs) as -> by congruence.
  rewrite (take_S_r _ _ _ Hb), fmap_app. simpl.
  rewrite find_similar_objects_snoc, Hrun, length_fmap.
  rewrite (loop_body_run _ b gs Hinv).
  rewrite length_take_le; [reflexivity|].
  apply lookup_lt_Some in Hb. lia.
Qed.

(** C4. Membership is tested against representatives, by a strict
    comparison with 10. Let [a] be the representative of its group and [b] a
    later colour, and take the dictionary just before [b] is processed. At
    Euclidean distance exactly 10, [b] is not placed in the group of [a]: the
    entry of [a] is left as it is. At Euclidean distance below 10, [b] is
    placed in the group of [a], whose count alone is incremented, provided
    every other group with a member before [a] is at Euclidean distance 10 or
    more from [b] with no channel difference reaching 16. *)
Theorem C4_threshold_is_strict (cols : list Color) (i j : nat) (a b : Color) :
  i < j ->
  cols !! i = Some a ->
  cols !! j = Some b ->
  group_of (Some <$> cols) i = Some a ->
  exists gs gs',
    find_similar_objects (Some <$> take j cols) = Some gs
    /\ find_similar_objects (Some <$> take (S j) cols) = Some gs'
    /\ (euclid_sq a b = 100%Z ->
        group_of (Some <$> cols) j <> Some a
        /\ forall inf, (a, inf) ∈ gs -> (a, inf) ∈ gs')
    /\ ((euclid_sq a b < 100)%Z ->
        (forall p k, p < i -> group_of (Some <$> cols) p = Some k -> k <> a ->
           no_wrap b k /\ (100 <= euclid_sq b k)%Z) ->
        group_of (Some <$> cols) j = Some a /\ gs' = bump_at a gs).
Proof.
  intros Hij Ha Hb Hga.
  pose proof (lookup_lt_Some _ _ _ Hb) as Hj.
  destruct (run_total (take j cols)) as (gs & Hrun & Hinv).
  pose proof (run_step cols j b gs Hb Hrun) as Hstep.
  exists gs. eexists. split; [exact Hrun|]. split; [exact Hstep|].
  rewrite (group_of_eq cols j b gs Hb Hrun).
  split.
  - intros Hd. pose proof (similar_at_10 a b Hd) as Hs.
    destruct (List.find (similar b) (keys gs)) as [k|] eqn:Hfind; simpl.
    + assert (Hka : k <> a).
      { intros ->. apply List.find_some in Hfind as [_ Hk]. congruence. }
      split; [congruence|].
      intros inf Hin. apply elem_of_bump_at_other; auto.
    + split.
      * intros [= ->]. unfold euclid_sq in Hd. lia.
      * intros inf Hin. apply elem_of_app. now left.
  - intros Hd Hearlier. pose proof (similar_below_10 a b Hd) as Hs.
    assert (Hga' : group_of (Some <$> take j cols) i = Some a).
    { rewrite group_of_take by lia. assumption. }
    pose proof (run_inv_key _ _ _ _ Hinv Hga') as Hin.
    destruct (List.find (similar b) (keys gs)) as [k|] eqn:Hfind; simpl.
    + assert (Hka : k = a); [|subst k; auto].
      destruct (decide (k = a)) as [?|Hne]; [assumption|].
      destruct (find_first_sorted _ gs k a (inv_sorted _ _ Hinv) Hfind Hin Hs)
        as [?|(inf_k & inf_a & Hk & Hia & Hlt)]; [assumption|exfalso].
      destruct (inv_entry _ _ Hinv a inf_a Hia) as (_ & _ & Hmin & _).
      destruct (inv_entry _ _ Hinv k inf_k Hk) as (_ & Hgk & _ & _).
      pose proof (Hmin i Hga') as Hle.
      rewrite group_of_take in Hgk by lia.
      apply List.find_some in Hfind as [_ Hsk].
      destruct (Hearlier (index inf_k) k ltac:(lia) Hgk Hne) as [Hnw Hfar].
      rewrite similar_spec, (no_wrap_sum_sq_diff _ _ Hnw) in Hsk.
      apply Z.ltb_lt in Hsk. lia.
    + apply list_elem_of_In in Hin.
      pose proof (List.find_none _ _ Hfind a Hin). congruence.
Qed.

(** In the sample run the second colour is at distance 10 from black and
    the third at distance 9. *)
Lemma C4_threshold_is_strict_witness :
  group_of (Some <$> sample_colors) 1 <> Some black
  /\ group_of (Some <$> sample_colors) 2 = Some black.
Proof.
  split.
  - destruct (C4_threshold_is_strict sample_colors 0 1 black (mkColor 6 8 0))
      as (gs & gs' & _ & _ & H10 & _);
      [lia | reflexivity | reflexivity | vm_compute; reflexivity |].
    apply H10. reflexivity.
  - destruct (C4_threshold_is_strict sample_colors 0 2 black (mkColor 9 0 0))
      as (gs & gs' & _ & _ & _ & Hlt);
      [lia | reflexivity | reflexivity | vm_compute; reflexivity |].
    apply Hlt; [reflexivity | intros p k Hp; lia].
Defined.

(** C4, the threshold as worded for any two colours. Neither half holds
    when the first colour is not the representative of its group: black and
    (10,0,0) are at distance exactly 10 and both join (5,0,0); (9,0,0) and
    (15,0,0) are at distance 6, no other group exists, and (15,0,0) founds a
    group of its own, being at distance 15 from the representative black. *)
Lemma C4_any_two_colours_counterexample :
  ~ apart_10_in_different_groups [mkColor 5 0 0; black; mkColor 10 0 0] 1 2
  /\ ~ below_10_in_same_group [black; mkColor 9 0 0; mkColor 15 0 0] 1 2.
Proof.
  split.
  - intros H. apply (H black (mkColor 10 0 0)); reflexivity.
  - intros H.
    assert (Hg : group_of (Some <$> [black; mkColor 9 0 0; mkColor 15 0 0]) 1
                 = group_of (Some <$> [black; mkColor 9 0 0; mkColor 15 0 0]) 2).
    { apply (H (mkColor 9 0 0) (mkColor 15 0 0)); try reflexivity.
      intros p k Hp Hk Hne. exfalso.
      destruct p as [|[|p]]; [| |lia];
        vm_compute in Hk; apply Hne; rewrite <- Hk; vm_compute; reflexivity. }
    vm_compute in Hg. discriminate.
Qed.

(** * The distance on colours *)

(** C2. [color_distance] is not the Euclidean distance on [uint8]
    colours: each squared channel difference is reduced modulo 256 before
    the sum. The function is symmetric, and it is the Euclidean distance
    when that distance is below 16. On red and green it returns the square
    root of 2 where the Euclidean radicand is 130050, and
    [find_similar_objects] then puts red and green in one group. *)
Theorem C2_color_distance_wraps :
  (forall c k, color_distance (Some c) k
               = Some (f64.sqrt (f64.of_Z
                   (((ch0 c - ch0 k) * (ch0 c - ch0 k)) mod 256
                    + ((ch1 c - ch1 k) * (ch1 c - ch1 k)) mod 256
                    + ((ch2 c - ch2 k) * (ch2 c - ch2 k)) mod 256)%Z)))
  /\ (forall c k, color_distance (Some c) k = color_distance (Some k) c)
  /\ (forall c k, (euclid_sq c k < 256)%Z ->
        color_distance (Some c) k = Some (f64.sqrt (f64.of_Z (euclid_sq c k))))
  /\ color_distance (Some red) green = Some (f64.sqrt (f64.of_Z 2))
  /\ euclid_sq red green = 130050%Z
  /\ find_similar_objects [Some red; Some red; Some green]
     = Some [(red, mkInfo 0 3)].
Proof.
  split; [|split; [|split; [|split; [|split]]]].
  - intros c k. unfold color_distance. now rewrite sum_sq_diff_unfold.
  - intros c k. unfold color_distance. now rewrite sum_sq_diff_sym.
  - intros c k H. unfold color_distance. now rewrite sum_sq_diff_small.
  - reflexivity.
  - reflexivity.
  - vm_compute. reflexivity.
Qed.

(** * Boxes *)

Lemma int_trunc_rounds_toward_zero q : rounds_toward_zero q (int_trunc q).
Proof.
  destruct q as [n d]. unfold rounds_toward_zero, int_trunc, Qle, Qlt, inject_Z.
  simpl. rewrite !Z.mul_1_r.
  pose proof (Z.quot_rem' n (Z.pos d)) as Hqr.
  split; intros Hn.
  - pose proof (Z.rem_bound_pos n (Z.pos d) ltac:(lia) ltac:(lia)). lia.
  - pose proof (Z.rem_bound_pos_neg n (Z.pos d) ltac:(lia) ltac:(lia)). lia.
Qed.

Lemma int_trunc_inject_Z z : int_trunc (inject_Z z) = z.
Proof. unfold int_trunc. simpl. apply Z.quot_1_r. Qed.

(** [int] on a float is the truncation of the number it stands for. *)
Lemma to_int_is_trunc v z : f64.to_int v = Some z -> z = int_trunc (f64.to_Q v).
Proof.
  destruct v as [s|s| |s m e]; simpl; try discriminate.
  - intros [= <-]. reflexivity.
  - intros [= <-]. destruct e as [|p|p].
    + rewrite int_trunc_inject_Z. now destruct s.
    + rewrite int_trunc_inject_Z, Z.shiftl_mul_pow2 by lia.
      destruct s; [|reflexivity].
      change (Z.neg m) with (- Z.pos m)%Z. ring.
    + unfold int_trunc. simpl Qnum; simpl Qden.
      change (Z.shiftl (Z.pos m) (Z.neg p)) with (Z.shiftr (Z.pos m) (Z.pos p)).
      rewrite Z.shiftr_div_pow2 by lia.
      rewrite Pos2Z.inj_pow.
      assert (Hd : (0 < 2 ^ Z.pos p)%Z) by (apply Z.pow_pos_nonneg; lia).
      destruct s.
      * change (Z.neg m) with (- Z.pos m)%Z.
        rewrite Z.quot_opp_l by lia. f_equal.
        symmetry. apply Z.quot_div_nonneg; lia.
      * symmetry. apply Z.quot_div_nonneg; lia.
Qed.

Lemma to_int_None v : f64.to_int v = None <-> f64.finite v = false.
Proof. destruct v; simpl; split; congruence. Qed.

(** The conversion of a four-component box fails exactly when one of the
    four floats handed to [int] is an infinity or a NaN. *)
Lemma extract_None_iff cx cy w h W H :
  extract_bbox_coordinates [cx; cy; w; h] W H = None
  <-> exists v, v ∈ corner_values [cx; cy; w; h] W H /\ f64.finite v = false.
Proof.
  unfold extract_bbox_coordinates, corner_values.
  set (v1 := f64.mul (f64.sub cx _) _). set (v2 := f64.mul (f64.sub cy _) _).
  set (v3 := f64.mul (f64.add cx _) _). set (v4 := f64.mul (f64.add cy _) _).
  split.
  - intros Hnone.
    destruct (f64.to_int v1) eqn:E1;
      [|exists v1; split; [set_solver | now apply to_int_None]].
    destruct (f64.to_int v2) eqn:E2;
      [|exists v2; split; [set_solver | now apply to_int_None]].
    destruct (f64.to_int v3) eqn:E3;
      [|exists v3; split; [set_solver | now apply to_int_None]].
    destruct (f64.to_int v4) eqn:E4;
      [discriminate|exists v4; split; [set_solver | now apply to_int_None]].
  - intros (v & Hin & Hv). apply to_int_None in Hv.
    repeat (apply elem_of_cons in Hin as [->|Hin]);
      [| | | |now apply elem_of_nil in Hin];
      rewrite ?Hv; simpl;
      repeat match goal with
             | |- context [f64.to_int ?e] =>
                 lazymatch goal with
                 | H : f64.to_int e = None |- _ => fail
                 | _ => destruct (f64.to_int e) eqn:?; simpl
                 end
             end; congruence.
Qed.

(** C6. The conversion of a four-component box evaluates the four corner
    expressions in binary64 and truncates each result toward zero; it fails
    exactly when one of the four results is an infinity or a NaN. On the box
    (0.5, 0.5, 0.5, 0.5) and a 100 x 100 image the result is (25, 25, 75, 75).
    On a box whose left edge falls at -0.75 the corner is 0, where rounding to
    nearest gives -1. *)
Theorem C6_box_to_pixels_truncates (cx cy w h : spec_float) (W H : Z) :
  (extract_bbox_coordinates [cx; cy; w; h] W H = None
   <-> exists v, v ∈ corner_values [cx; cy; w; h] W H /\ f64.finite v = false)
  /\ (forall x1 y1 x2 y2,
        extract_bbox_coordinates [cx; cy; w; h] W H = Some (x1, y1, x2, y2) ->
        rounds_toward_zero
          (f64.to_Q (f64.mul (f64.sub cx (f64.div w (f64.of_Z 2))) (f64.of_Z W))) x1
        /\ rounds_toward_zero
             (f64.to_Q (f64.mul (f64.sub cy (f64.div h (f64.of_Z 2))) (f64.of_Z H))) y1
        /\ rounds_toward_zero
             (f64.to_Q (f64.mul (f64.add cx (f64.div w (f64.of_Z 2))) (f64.of_Z W))) x2
        /\ rounds_toward_zero
             (f64.to_Q (f64.mul (f64.add cy (f64.div h (f64.of_Z 2))) (f64.of_Z H))) y2)
  /\ extract_bbox_coordinates [f64.half; f64.half; f64.half; f64.half] 100 100
     = Some (25, 25, 75, 75)%Z
  /\ extract_bbox_coordinates
       [f64.of_Z 0; f64.half; f64.div (f64.of_Z 3) (f64.of_Z 200); f64.half]
       100 100
     = Some (0, 25, 0, 75)%Z
  /\ round_nearest
       (f64.to_Q (f64.mul (f64.sub (f64.of_Z 0)
                            (f64.div (f64.div (f64.of_Z 3) (f64.of_Z 200))
                               (f64.of_Z 2)))
                   (f64.of_Z 100)))
     = (-1)%Z.
Proof.
  split; [apply extract_None_iff|]. split; [|split; [|split]].
  - intros x1 y1 x2 y2. unfold extract_bbox_coordinates.
    destruct (f64.to_int (f64.mul (f64.sub cx _) _)) as [a1|] eqn:E1; [|discriminate].
    destruct (f64.to_int (f64.mul (f64.sub cy _) _)) as [a2|] eqn:E2; [|discriminate].
    destruct (f64.to_int (f64.mul (f64.add cx _) _)) as [a3|] eqn:E3; [|discriminate].
    destruct (f64.to_int (f64.mul (f64.add cy _) _)) as [a4|] eqn:E4; [|discriminate].
    simpl. intros [= <- <- <- <-].
    apply to_int_is_trunc in E1, E2, E3, E4. subst a1 a2 a3 a4.
    split; [|split; [|split]]; apply int_trunc_rounds_toward_zero.
  - vm_compute. reflexivity.
  - vm_compute. reflexivity.
  - vm_compute. reflexivity.
Qed.

(** C6, the exact formula. The conversion does not return the truncation
    of the exactly computed corner expression on every box: on the double
    nearest to 0.3 and a 10 x 10 image the rounded product is 3.0 and the
    corner is 3, where the exact product is below 3 and truncates to 2; on
    the double nearest to 0.29 and a 100 x 100 image the corner is 28, where
    29/100 times 100 truncates to 29. *)
Lemma C6_exact_formula_counterexample :
  ~ matches_exact_formula (f64.div (f64.of_Z 3) (f64.of_Z 10)) f64.half
      (f64.of_Z 0) (f64.of_Z 0) 10 10
  /\ extract_bbox_coordinates
       [f64.div (f64.of_Z 3) (f64.of_Z 10); f64.half; f64.of_Z 0; f64.of_Z 0] 10 10
     = Some (3, 5, 3, 5)%Z
  /\ extract_bbox_coordinates
       [f64.div (f64.of_Z 29) (f64.of_Z 100); f64.half; f64.of_Z 0; f64.of_Z 0]
       100 100
     = Some (28, 50, 28, 50)%Z
  /\ exact_corners (29 # 100) (1 # 2) 0 0 100 100 = (29, 50, 29, 50)%Z.
Proof.
  split; [|split; [|split]].
  - unfold matches_exact_formula. vm_compute. discriminate.
  - vm_compute. reflexivity.
  - vm_compute. reflexivity.
  - vm_compute. reflexivity.
Qed.

(** * Class names *)

(** C7. [replace_class_ids_with_names] keeps every record's count and
    colour; the class name is the mapped name when the class id is a key of
    the class-name map, and ["Unknown"] when it is not. *)
Theorem C7_unknown_class_name (colors_result : list color_result)
  (class_names : gmap Z string) (i : nat) (item : color_result) :
  colors_result !! i = Some item ->
  exists out,
    replace_class_ids_with_names colors_result class_names !! i = Some out
    /\ named_count out = result_count item
    /\ named_color out = result_color item
    /\ (class_names !! class_id item = None -> class_name out = "Unknown")
    /\ (forall name, class_names !! class_id item = Some name ->
          class_name out = name).
Proof.
  intros Hi. unfold replace_class_ids_with_names.
  change (List.map ?f colors_result) with (f <$> colors_result).
  rewrite list_lookup_fmap, Hi. simpl.
  eexists. split; [reflexivity|].
  destruct (class_names !! class_id item) as [name|]; simpl.
  - repeat split; [discriminate | now intros ? [= ->]].
  - repeat split. discriminate.
Qed.

(** Class names [{0: "cat"}] and a record of class 5. *)
Lemma C7_unknown_class_name_witness :
  exists out,
    replace_class_ids_with_names [mkResult 5 1 red] sample_names !! 0 = Some out
    /\ class_name out = "Unknown".
Proof.
  destruct (C7_unknown_class_name [mkResult 5 1 red] sample_names 0
              (mkResult 5 1 red) eq_refl) as (out & Hout & _ & _ & Hnone & _).
  exists out. split; [exact Hout|]. apply Hnone. reflexivity.
Defined.

(** * The pipeline *)

Section PipelineFacts.

Variable kmeans_center : list Color -> option Color.

Lemma loop_body_None gs i : loop_body gs i None = None.
Proof. unfold loop_body. now destruct (keys gs). Qed.

(** A [None] among the dominant colours makes the grouping fail. *)
Lemma enumerate_from_None gs i (l : list (option Color)) :
  None ∈ l -> enumerate_from gs i l = None.
Proof.
  revert gs i. induction l as [|x l IH]; intros gs i Hin.
  - now apply elem_of_nil in Hin.
  - apply elem_of_cons in Hin as [<-|Hin]; simpl.
    + now rewrite loop_body_None.
    + destruct (loop_body gs i x); [now apply IH | reflexivity].
Qed.

Lemma collect_failed image (objects_data : list obj_data) obj :
  obj ∈ objects_data ->
  detection_ok kmeans_center image obj = false ->
  collect_dominant_colors kmeans_center image objects_data = None
  \/ exists l, collect_dominant_colors kmeans_center image objects_data = Some l
               /\ None ∈ l.
Proof.
  intros Hin Hbad. induction objects_data as [|o rest IH].
  - now apply elem_of_nil in Hin.
  - simpl. apply elem_of_cons in Hin as [<-|Hin].
    + unfold detection_ok in Hbad.
      destruct (extract_bbox_coordinates _ _ _) as [[[[x1 y1] x2] y2]|]; [|now left].
      destruct (find_dominant_colors _ _) as [c|] eqn:Hc.
      * rewrite bool_decide_eq_true_2 in Hbad by eauto. discriminate.
      * destruct (collect_dominant_colors _ _ rest) as [l|]; simpl; [right|now left].
        eexists. split; [reflexivity|]. apply elem_of_cons. now left.
    + destruct (extract_bbox_coordinates _ _ _) as [[[[x1 y1] x2] y2]|]; [|now left].
      destruct (IH Hin) as [->|(l & -> & Hl)]; simpl; [now left|right].
      eexists. split; [reflexivity|]. apply elem_of_cons. now right.
Qed.

End PipelineFacts.

(** C3. A detection whose box does not convert, or whose crop yields no
    colour, is not skipped: [colors_extracted] returns [None]
    for the whole call, whatever the other detections are, and
    [process_image] then ends in its error handler with the table as it
    was. *)
Theorem C3_failed_detection_aborts_the_run
  (kmeans_center : list Color -> option Color)
  (predict_objects : Image -> option (list obj_data * gmap Z string))
  (str_color : Color -> string)
  (image : Image) (objects_data : list obj_data)
  (class_names : gmap Z string) (db : database) (obj : obj_data) :
  obj ∈ objects_data ->
  detection_ok kmeans_center image obj = false ->
  colors_extracted kmeans_center image objects_data = None
  /\ (predict_objects image = Some (objects_data, class_names) ->
      process_image kmeans_center predict_objects str_color (Some image) db
      = (db, ProcessingError)).
Proof.
  intros Hin Hbad.
  assert (Hnone : colors_extracted kmeans_center image objects_data = None).
  { unfold colors_extracted.
    destruct (collect_failed kmeans_center image objects_data obj Hin Hbad)
      as [->|(l & -> & Hl)]; [reflexivity|].
    unfold find_similar_objects. now rewrite enumerate_from_None. }
  split; [assumption|].
  intros Hpred. unfold process_image. now rewrite Hpred, Hnone.
Qed.

(** The run on a good detection followed by one with an empty crop. *)
Lemma C3_failed_detection_aborts_the_run_witness :
  colors_extracted mean_center sample_image [left_box; empty_box] = None
  /\ process_image mean_center (sample_predict [left_box; empty_box]) sample_str
       (Some sample_image) None = (None, ProcessingError).
Proof.
  destruct (C3_failed_detection_aborts_the_run mean_center
              (sample_predict [left_box; empty_box]) sample_str sample_image
              [left_box; empty_box] sample_names None empty_box) as [H1 H2].
  - apply elem_of_cons. right. apply elem_of_cons. now left.
  - vm_compute. reflexivity.
  - split; [exact H1 | apply H2; reflexivity].
Defined.

(** C3, the per-detection policy. It fails on a box with three components,
    and on a box whose crop has no pixel: the run yields [None], not the groups of
    the remaining detection. *)
Lemma C3_skip_policy_counterexample :
  ~ skips_failed_detections mean_center sample_image [left_box; short_box]
  /\ ~ skips_failed_detections mean_center sample_image [left_box; empty_box]
  /\ colors_extracted mean_center sample_image [left_box] = Some [mkResult 0 1 red].
Proof.
  unfold skips_failed_detections.
  split; [|split]; vm_compute; [discriminate | discriminate | reflexivity].
Qed.

(** C8. With no detection, [colors_extracted] returns the empty list,
    [replace_class_ids_with_names] keeps it empty, [save_to_database] adds no
    row, and [process_image] ends normally with the rows the table had. *)
Theorem C8_empty_detections
  (kmeans_center : list Color -> option Color)
  (predict_objects : Image -> option (list obj_data * gmap Z string))
  (str_color : Color -> string)
  (image : Image) (class_names : gmap Z string) (db : database) :
  predict_objects image = Some ([], class_names) ->
  colors_extracted kmeans_center image [] = Some []
  /\ replace_class_ids_with_names [] class_names = []
  /\ table_rows (save_to_database str_color [] db) = table_rows db
  /\ exists db',
       process_image kmeans_center predict_objects str_color (Some image) db
       = (db', Done)
       /\ table_rows db' = table_rows db.
Proof.
  intros Hpred.
  assert (Hsave : table_rows (save_to_database str_color [] db) = table_rows db).
  { unfold save_to_database. simpl. apply app_nil_r. }
  repeat split; try assumption.
  unfold process_image. rewrite Hpred. simpl.
  eexists. split; [reflexivity|]. exact Hsave.
Qed.

(** The run of the sample image with a detector that finds nothing. *)
Lemma C8_empty_detections_witness :
  exists db',
    process_image mean_center (sample_predict []) sample_str
      (Some sample_image) None = (db', Done)
    /\ table_rows db' = [].
Proof.
  destruct (C8_empty_detections mean_center (sample_predict []) sample_str
              sample_image sample_names None eq_refl) as (_ & _ & _ & H).
  exact H.
Defined.

(** * Further properties of [find_similar_objects] *)

Lemma all_Some_fmap {A} (l : list (option A)) :
  None ∉ l -> exists xs, l = Some <$> xs.
Proof.
  induction l as [|[x|] l IH]; intros Hn.
  - now exists [].
  - destruct IH as [xs ->].
    + intros H. apply Hn. apply elem_of_cons. now right.
    + now exists (x :: xs).
  - exfalso. apply Hn. apply elem_of_cons. now left.
Qed.

(** The grouping fails exactly when some dominant colour is [None]. *)
Theorem find_similar_objects_None_iff (dominant_colors : list (option Color)) :
  find_similar_objects dominant_colors = None <-> None ∈ dominant_colors.
Proof.
  split.
  - intros Hnone. destruct (decide (None ∈ dominant_colors)) as [?|Hn]; [assumption|].
    destruct (all_Some_fmap _ Hn) as [cols ->].
    destruct (run_total cols) as (gs & Hrun & _). congruence.
  - intros Hin. unfold find_similar_objects. now apply enumerate_from_None.
Qed.

(** A run of equal colours forms one group, founded at position 0, that
    counts them all. *)
Theorem identical_colors_one_group (c : Color) (n : nat) :
  find_similar_objects (replicate (S n) (Some c)) = Some [(c, mkInfo 0 (S n))].
Proof.
  induction n as [|n IH].
  - reflexivity.
  - change (replicate (S (S n)) (Some c)) with (Some c :: replicate (S n) (Some c)).
    rewrite replicate_cons_app, find_similar_objects_snoc, IH.
    rewrite loop_body_Some. simpl. rewrite similar_refl. simpl.
    now destruct (decide (c = c)).
Qed.

(** Every colour passes the distance test against the representative of
    the group it is assigned to. *)
Theorem member_is_near_its_representative (cols : list Color) (j : nat)
  (k : Color) :
  group_of (Some <$> cols) j = Some k ->
  exists c, cols !! j = Some c /\ similar c k = true
            /\ (sum_sq_diff c k < 100)%Z.
Proof.
  intros Hg.
  pose proof (group_of_lt _ _ _ Hg) as Hj. rewrite length_fmap in Hj.
  destruct (lookup_lt_is_Some_2 cols j Hj) as [c Hc].
  destruct (run_total (take j cols)) as (gs & Hrun & _).
  rewrite (group_of_eq cols j c gs Hc Hrun) in Hg.
  exists c. split; [assumption|].
  assert (Hs : similar c k = true).
  { destruct (List.find (similar c) (keys gs)) as [k'|] eqn:Hfind; simpl in Hg.
    - injection Hg as ->. now apply List.find_some in Hfind as [_ ?].
    - injection Hg as ->. apply similar_refl. }
  split; [assumption|]. rewrite similar_spec in Hs. now apply Z.ltb_lt.
Qed.

Lemma member_is_near_its_representative_witness :
  exists c, sample_colors !! 2 = Some c /\ similar c black = true
            /\ (sum_sq_diff c black < 100)%Z.
Proof.
  apply (member_is_near_its_representative sample_colors 2 black).
  vm_compute. reflexivity.
Defined.

(** Two different representatives never pass the distance test against
    each other. *)
Theorem representatives_are_pairwise_far (cols : list Color) (gs : groups)
  (k1 k2 : Color) :
  find_similar_objects (Some <$> cols) = Some gs ->
  k1 ∈ keys gs -> k2 ∈ keys gs -> k1 <> k2 ->
  similar k1 k2 = false.
Proof.
  revert gs k1 k2.
  induction cols as [|c cols IH] using rev_ind; intros gs' k1 k2 Hrun H1 H2 Hne.
  - injection Hrun as <-. now apply elem_of_nil in H1.
  - destruct (run_total cols) as (gs & Hrun0 & Hinv).
    rewrite fmap_app in Hrun. simpl in Hrun.
    rewrite find_similar_objects_snoc, Hrun0, length_fmap in Hrun.
    rewrite (loop_body_run cols c gs Hinv) in Hrun. injection Hrun as <-.
    destruct (List.find (similar c) (keys gs)) as [k|] eqn:Hfind.
    + rewrite keys_bump_at in H1, H2. now apply (IH gs).
    + unfold keys in H1, H2. rewrite fmap_app in H1, H2. simpl in H1, H2.
      fold (keys gs) in H1, H2.
      apply elem_of_app in H1 as [H1|H1]; apply elem_of_app in H2 as [H2|H2].
      * now apply (IH gs).
      * apply list_elem_of_singleton in H2. subst k2. rewrite similar_sym.
        apply (List.find_none _ _ Hfind). now apply list_elem_of_In.
      * apply list_elem_of_singleton in H1. subst k1.
        apply (List.find_none _ _ Hfind). now apply list_elem_of_In.
      * apply list_elem_of_singleton in H1. apply list_elem_of_singleton in H2.
        congruence.
Qed.

Lemma representatives_are_pairwise_far_witness :
  similar black (mkColor 6 8 0) = false.
Proof.
  apply (representatives_are_pairwise_far sample_colors
           [(black, mkInfo 0 3); (mkColor 6 8 0, mkInfo 1 1)]).
  - vm_compute. reflexivity.
  - apply elem_of_cons. now left.
  - apply elem_of_cons. right. apply elem_of_cons. now left.
  - discriminate.
Defined.

(** ** How the dictionary grows *)

Lemma extends_refl gs : extends gs gs.
Proof. intros i k inf H. exists inf. auto. Qed.

Lemma extends_trans gs1 gs2 gs3 :
  extends gs1 gs2 -> extends gs2 gs3 -> extends gs1 gs3.
Proof.
  intros H12 H23 i k inf H.
  destruct (H12 i k inf H) as (inf2 & H2 & Hi2 & Hc2).
  destruct (H23 i k inf2 H2) as (inf3 & H3 & Hi3 & Hc3).
  exists inf3. repeat split; [assumption | congruence | lia].
Qed.

Lemma extends_bump_at k gs : extends gs (bump_at k gs).
Proof.
  intros i k0 inf H.
  assert (Hl : bump_at k gs !! i
               = Some (if decide (k0 = k) then bump (k0, inf) else (k0, inf))).
  { unfold bump_at, groups in *. now rewrite list_lookup_fmap, H. }
  destruct (decide (k0 = k)); eexists; (split; [exact Hl|]); simpl; auto.
Qed.

Lemma extends_snoc gs kv : extends gs (gs ++ [kv]).
Proof.
  intros i k inf H. exists inf. split; [now apply lookup_app_l_Some | auto].
Qed.

Lemma extends_keys gs gs' : extends gs gs' -> keys gs `prefix_of` keys gs'.
Proof.
  revert gs'. induction gs as [|[k inf] gs IH]; intros gs' H.
  - apply prefix_nil.
  - destruct (H 0 k inf eq_refl) as (inf' & H0 & _).
    destruct gs' as [|[k' inf''] gs']; [discriminate|].
    injection H0 as -> ->. simpl. apply prefix_cons, IH.
    intros i k0 inf0 Hi. apply (H (S i) k0 inf0 Hi).
Qed.

(** Under the invariant an entry's key is the colour at its index and its
    count is positive. *)
Lemma entry_key_and_count cols gs k inf :
  run_inv cols gs -> (k, inf) ∈ gs ->
  cols !! index inf = Some k /\ 1 <= count inf.
Proof.
  intros Hinv Hin.
  destruct (inv_entry _ _ Hinv k inf Hin) as (Hl & Hg & _ & ->).
  split; [assumption|]. now apply (members_pos _ (index inf)).
Qed.

Lemma run_extends (cols more : list Color) (gs gs' : groups) :
  find_similar_objects (Some <$> cols) = Some gs ->
  find_similar_objects (Some <$> (cols ++ more)) = Some gs' ->
  extends gs gs'.
Proof.
  intros Hrun. revert gs'.
  induction more as [|c more IH] using rev_ind; intros gs' Hrun'.
  - rewrite app_nil_r in Hrun'. assert (gs' = gs) as -> by congruence.
    apply extends_refl.
  - destruct (run_total (cols ++ more)) as (gs1 & Hrun1 & Hinv1).
    rewrite app_assoc, fmap_app in Hrun'. simpl in Hrun'.
    rewrite find_similar_objects_snoc, Hrun1, length_fmap in Hrun'.
    rewrite (loop_body_run _ c gs1 Hinv1) in Hrun'. injection Hrun' as <-.
    apply (extends_trans gs gs1); [now apply IH|].
    destruct (List.find (similar c) (keys gs1));
      [apply extends_bump_at | apply extends_snoc].
Qed.

(** Processing more colours never rewrites the dictionary built so far:
    every entry keeps its place, its key and its index, counts only grow, and
    the keys of the shorter run are a prefix of the keys of the longer one. *)
Theorem longer_input_extends_groups (cols more : list Color) (gs gs' : groups) :
  find_similar_objects (Some <$> cols) = Some gs ->
  find_similar_objects (Some <$> (cols ++ more)) = Some gs' ->
  keys gs `prefix_of` keys gs'
  /\ forall i k inf, gs !! i = Some (k, inf) ->
       exists inf', gs' !! i = Some (k, inf')
                    /\ index inf' = index inf /\ count inf <= count inf'.
Proof.
  intros Hrun Hrun'.
  pose proof (run_extends cols more gs gs' Hrun Hrun') as Hext.
  split; [now apply extends_keys | exact Hext].
Qed.

Lemma longer_input_extends_groups_witness :
  keys [(black, mkInfo 0 1); (mkColor 6 8 0, mkInfo 1 1)]
    `prefix_of` keys [(black, mkInfo 0 3); (mkColor 6 8 0, mkInfo 1 1)].
Proof.
  apply (longer_input_extends_groups [black; mkColor 6 8 0]
           [mkColor 9 0 0; mkColor 0 0 3]); vm_compute; reflexivity.
Defined.

Lemma length_le_total_count (gs : groups) :
  (forall k inf, (k, inf) ∈ gs -> 1 <= count inf) -> length gs <= total_count gs.
Proof.
  induction gs as [|[k inf] gs IH]; intros H; [simpl; lia|].
  rewrite total_count_cons. simpl.
  pose proof (H k inf ltac:(apply elem_of_cons; now left)).
  assert (length gs <= total_count gs); [|lia].
  apply IH. intros k' inf' Hin. apply (H k'). apply elem_of_cons. now right.
Qed.

Lemma groups_length_le cols gs : run_inv cols gs -> length gs <= length cols.
Proof.
  intros Hinv. rewrite <- (inv_total _ _ Hinv). apply length_le_total_count.
  intros k inf Hin. now destruct (entry_key_and_count cols gs k inf Hinv Hin).
Qed.

(** There are at most as many groups as colours, and on a non-empty input
    the first group is the one of the first colour, founded at position 0. *)
Theorem group_count_bounds (cols : list Color) (gs : groups) :
  find_similar_objects (Some <$> cols) = Some gs ->
  length gs <= length cols
  /\ forall c rest, cols = c :: rest ->
       exists n tail, gs = (c, mkInfo 0 n) :: tail /\ 1 <= n.
Proof.
  intros Hrun.
  destruct (run_total cols) as (gs0 & Hrun0 & Hinv).
  assert (gs0 = gs) as -> by congruence.
  split; [now apply (groups_length_le cols)|].
  intros c rest ->.
  pose proof (run_extends [c] rest [(c, mkInfo 0 1)] gs eq_refl Hrun) as Hext.
  destruct (Hext 0 c (mkInfo 0 1) eq_refl) as ([i n] & H0 & Hi & Hn).
  simpl in Hi, Hn. subst i.
  destruct gs as [|kv tail]; [discriminate|]. injection H0 as ->.
  exists n, tail. auto.
Qed.

Lemma group_count_bounds_witness :
  length [(black, mkInfo 0 3); (mkColor 6 8 0, mkInfo 1 1)] <= length sample_colors.
Proof.
  apply (group_count_bounds sample_colors). vm_compute. reflexivity.
Defined.

(** * Further properties of the distance *)

(** On every pair of colours [color_distance] returns a value; its
    radicand lies between 0 and 765, and the binary64 test against 10 agrees
    with the integer test of the radicand against 100: the square root
    introduces no rounding error at the threshold. *)
Theorem distance_test_is_exact (c k : Color) :
  exists d, color_distance (Some c) k = Some d
            /\ f64.ltb d threshold = (sum_sq_diff c k <? 100)%Z
            /\ (0 <= sum_sq_diff c k <= 765)%Z.
Proof.
  eexists. split; [reflexivity|]. split.
  - apply sqrt_lt_threshold, sum_sq_diff_range.
  - apply sum_sq_diff_range.
Qed.

(** Two colours whose channels differ by multiples of 16 are at distance
    zero for [color_distance], whatever the size of the differences, and so
    pass the distance test. *)
Theorem channels_congruent_mod_16_are_at_distance_zero (c k : Color) :
  ((ch0 c - ch0 k) mod 16 = 0)%Z ->
  ((ch1 c - ch1 k) mod 16 = 0)%Z ->
  ((ch2 c - ch2 k) mod 16 = 0)%Z ->
  color_distance (Some c) k = Some (S754_zero false) /\ similar c k = true.
Proof.
  intros H0 H1 H2.
  assert (Hsq : forall d, (d mod 16 = 0 -> (d * d) mod 256 = 0)%Z).
  { intros d Hd. apply Z.mod_divide in Hd; [|lia]. destruct Hd as [m ->].
    replace (m * 16 * (m * 16))%Z with (m * m * 256)%Z by ring.
    now apply Z.mod_mul. }
  assert (Hz : sum_sq_diff c k = 0%Z).
  { rewrite sum_sq_diff_unfold, !Hsq by assumption. reflexivity. }
  split.
  - unfold color_distance. rewrite Hz. reflexivity.
  - rewrite similar_spec, Hz. reflexivity.
Qed.

Lemma channels_congruent_mod_16_are_at_distance_zero_witness :
  color_distance (Some (mkColor 16 32 240)) black = Some (S754_zero false)
  /\ similar (mkColor 16 32 240) black = true.
Proof.
  apply (channels_congruent_mod_16_are_at_distance_zero (mkColor 16 32 240) black);
    reflexivity.
Defined.

(** ** Slices and crops *)

Lemma slice_bound_range n i : (0 <= slice_bound n i <= Z.of_nat n)%Z.
Proof. unfold slice_bound. destruct (i <? 0)%Z eqn:E; lia. Qed.

(** A slice never selects an index outside the array, whatever its
    bounds. *)
Lemma slice_indices_in_bounds (start stop : Z) (n i : nat) :
  In i (slice_indices start stop n) -> i < n.
Proof.
  unfold slice_indices. intros Hin. apply in_seq in Hin.
  pose proof (slice_bound_range n start). pose proof (slice_bound_range n stop).
  lia.
Qed.

(** With non-negative bounds in order, a slice selects the positions from
    [start] up to [stop], both clipped to the length. *)
Lemma slice_indices_nonneg (a b n : nat) :
  a <= b ->
  slice_indices (Z.of_nat a) (Z.of_nat b) n
  = seq (a `min` n) (b `min` n - a `min` n).
Proof.
  intros Hab. unfold slice_indices, slice_bound.
  destruct (Z.of_nat a <? 0)%Z eqn:Ea; [lia|].
  destruct (Z.of_nat b <? 0)%Z eqn:Eb; [lia|].
  f_equal; lia.
Qed.

(** A slice is empty when its bounds have the same sign and are not in
    increasing order, and also when a negative start, counted from the end,
    does not come before a non-negative stop. *)
Lemma slice_indices_empty (start stop : Z) (n : nat) :
  ((0 <= stop <= start)%Z \/ (stop <= start < 0)%Z
   \/ (start < 0 <= stop /\ stop <= start + Z.of_nat n)%Z) ->
  slice_indices start stop n = [].
Proof.
  intros H. unfold slice_indices, slice_bound.
  destruct (start <? 0)%Z eqn:Ea; destruct (stop <? 0)%Z eqn:Eb;
    match goal with |- seq _ ?len = _ => replace len with 0 by lia end;
    reflexivity.
Qed.

Lemma length_flat_map_const {A B} (f : A -> list B) (l : list A) m :
  (forall x, length (f x) = m) -> length (flat_map f l) = length l * m.
Proof.
  intros Hf. induction l as [|x l IH]; simpl; [reflexivity|].
  rewrite length_app, Hf, IH. lia.
Qed.

(** A crop has one pixel per selected row and column, and each of its
    pixels is a pixel of the image. For a rectangle inside the image that is
    [(y2 - y1) * (x2 - x1)] pixels. *)
Theorem cropped_region_size (image : Image) (x1 y1 x2 y2 : Z) :
  length (cropped_region image x1 y1 x2 y2)
  = length (slice_indices y1 y2 (img_height image))
    * length (slice_indices x1 x2 (img_width image))
  /\ (forall p, In p (cropped_region image x1 y1 x2 y2) ->
        exists y x, y < img_height image /\ x < img_width image
                    /\ p = pixel_at image y x)
  /\ ((0 <= x1 <= x2)%Z -> (x2 <= Z.of_nat (img_width image))%Z ->
      (0 <= y1 <= y2)%Z -> (y2 <= Z.of_nat (img_height image))%Z ->
      length (cropped_region image x1 y1 x2 y2)
      = Z.to_nat (y2 - y1) * Z.to_nat (x2 - x1)).
Proof.
  assert (Hlen : length (cropped_region image x1 y1 x2 y2)
                 = length (slice_indices y1 y2 (img_height image))
                   * length (slice_indices x1 x2 (img_width image))).
  { unfold cropped_region. apply length_flat_map_const.
    intros y. apply length_map. }
  split; [exact Hlen|]. split.
  - unfold cropped_region. intros p Hin.
    apply in_flat_map in Hin as (y & Hy & Hin).
    apply in_map_iff in Hin as (x & <- & Hx).
    exists y, x. split; [|split; [|reflexivity]];
      eapply slice_indices_in_bounds; eassumption.
  - intros Hx Hxw Hy Hyh. rewrite Hlen.
    unfold slice_indices, slice_bound.
    destruct (x1 <? 0)%Z eqn:E1; [lia|]. destruct (x2 <? 0)%Z eqn:E2; [lia|].
    destruct (y1 <? 0)%Z eqn:E3; [lia|]. destruct (y2 <? 0)%Z eqn:E4; [lia|].
    rewrite !length_seq. f_equal; lia.
Qed.

Lemma flat_map_all_nil {A B} (f : A -> list B) (l : list A) :
  (forall x, f x = []) -> flat_map f l = [].
Proof.
  intros Hf. induction l as [|x l IH]; simpl; [reflexivity|].
  now rewrite Hf, IH.
Qed.

(** A crop whose column slice or row slice is empty has no pixel. *)
Lemma cropped_region_empty (image : Image) (x1 y1 x2 y2 : Z) :
  slice_indices x1 x2 (img_width image) = []
  \/ slice_indices y1 y2 (img_height image) = [] ->
  cropped_region image x1 y1 x2 y2 = [].
Proof.
  unfold cropped_region. intros [->| ->]; [|reflexivity].
  now apply flat_map_all_nil.
Qed.

(** A rectangle that hangs over the left or the top edge of the image is
    not clipped: its negative corner is counted from the far edge, and when
    that does not come before the other corner the crop has no pixel. *)
Theorem overhanging_crop_is_empty (image : Image) (x1 y1 x2 y2 : Z) :
  (x1 < 0 <= x2 /\ x2 <= x1 + Z.of_nat (img_width image))%Z
  \/ (y1 < 0 <= y2 /\ y2 <= y1 + Z.of_nat (img_height image))%Z ->
  cropped_region image x1 y1 x2 y2 = [].
Proof.
  intros H. apply cropped_region_empty.
  destruct H as [H|H]; [left|right]; apply slice_indices_empty; auto.
Qed.

Lemma overhanging_crop_is_empty_witness :
  cropped_region sample_image (-1) 0 2 4 = [].
Proof.
  apply overhanging_crop_is_empty. left. simpl. lia.
Defined.





(** * Further properties of [colors_extracted] *)

Section Extraction.

Variable kmeans_center : list Color -> option Color.

Lemma detection_ok_true image obj :
  detection_ok kmeans_center image obj = true ->
  exists c, dominant_color_of kmeans_center image obj = Some c.
Proof.
  unfold detection_ok, dominant_color_of.
  destruct (extract_bbox_coordinates _ _ _) as [[[[x1 y1] x2] y2]|]; [|discriminate].
  intros H. apply bool_decide_eq_true in H as [c Hc]. eauto.
Qed.

(** When every detection is fine, the first loop collects one colour per
    detection, in order. *)
Lemma collect_ok image (objects_data : list obj_data) :
  (forall obj, obj ∈ objects_data -> detection_ok kmeans_center image obj = true) ->
  exists cols,
    collect_dominant_colors kmeans_center image objects_data = Some (Some <$> cols)
    /\ Forall2 (fun obj c => dominant_color_of kmeans_center image obj = Some c)
         objects_data cols.
Proof.
  induction objects_data as [|obj rest IH]; intros Hok.
  - exists []. split; [reflexivity|constructor].
  - destruct IH as (cols & Hcol & Hall).
    { intros o Ho. apply Hok. apply elem_of_cons. now right. }
    destruct (detection_ok_true image obj) as [c Hc].
    { apply Hok. apply elem_of_cons. now left. }
    exists (c :: cols). split; [|now constructor].
    simpl. unfold dominant_color_of in Hc.
    destruct (extract_bbox_coordinates _ _ _) as [[[[x1 y1] x2] y2]|]; [|discriminate].
    now rewrite Hc, Hcol.
Qed.

Lemma compile_results_spec (objects_data : list obj_data) gs rs :
  compile_results objects_data gs = Some rs ->
  Forall2 (record_of_entry objects_data) gs rs.
Proof.
  revert rs. induction gs as [|[k inf] gs IH]; simpl; intros rs H.
  - injection H as <-. constructor.
  - destruct (objects_data !! index inf) as [obj|] eqn:Hobj; [|discriminate].
    destruct (compile_results objects_data gs) as [rs'|]; [|discriminate].
    injection H as <-. constructor; [|now apply IH].
    unfold record_of_entry. simpl. repeat split. now exists obj.
Qed.

Lemma result_total_eq (objects_data : list obj_data) gs rs :
  Forall2 (record_of_entry objects_data) gs rs ->
  result_total rs = total_count gs.
Proof.
  induction 1 as [|[k inf] r gs rs (_ & Hr & _) _ IH]; [reflexivity|].
  rewrite total_count_cons, <- IH. simpl in Hr. rewrite <- Hr. reflexivity.
Qed.

(** The three stages of a run in which every detection is fine. *)
Lemma colors_extracted_records image (objects_data : list obj_data) :
  (forall obj, obj ∈ objects_data -> detection_ok kmeans_center image obj = true) ->
  exists cols gs rs,
    Forall2 (fun obj c => dominant_color_of kmeans_center image obj = Some c)
      objects_data cols
    /\ run_inv cols gs
    /\ Forall2 (record_of_entry objects_data) gs rs
    /\ colors_extracted kmeans_center image objects_data = Some rs.
Proof.
  intros Hok.
  destruct (collect_ok image objects_data Hok) as (cols & Hcol & Hall).
  pose proof (Forall2_length _ _ _ Hall) as Hlen.
  destruct (run_total cols) as (gs & Hrun & Hinv).
  destruct (compile_results_total objects_data gs) as [rs Hrs].
  { intros k inf Hin. rewrite Hlen. now apply (run_inv_index_lt cols gs k inf). }
  exists cols, gs, rs. split; [assumption|]. split; [assumption|].
  split; [now apply compile_results_spec|].
  unfold colors_extracted. now rewrite Hcol, Hrun.
Qed.

Lemma records_total image (objects_data : list obj_data) cols gs rs :
  Forall2 (fun obj c => dominant_color_of kmeans_center image obj = Some c)
    objects_data cols ->
  run_inv cols gs ->
  Forall2 (record_of_entry objects_data) gs rs ->
  result_total rs = length objects_data /\ length rs <= length objects_data.
Proof.
  intros Hall Hinv Hspec.
  pose proof (Forall2_length _ _ _ Hall) as Hlen.
  split.
  - rewrite (result_total_eq _ _ _ Hspec), (inv_total _ _ Hinv). auto.
  - rewrite <- (Forall2_length _ _ _ Hspec), Hlen. now apply groups_length_le.
Qed.

Lemma record_origin image (objects_data : list obj_data) cols gs rs r :
  Forall2 (fun obj c => dominant_color_of kmeans_center image obj = Some c)
    objects_data cols ->
  run_inv cols gs ->
  Forall2 (record_of_entry objects_data) gs rs ->
  r ∈ rs ->
  1 <= result_count r
  /\ exists obj, obj ∈ objects_data
       /\ class_id r = obj_class_id obj
       /\ dominant_color_of kmeans_center image obj = Some (result_color r).
Proof.
  intros Hall Hinv Hspec Hr.
  apply list_elem_of_lookup in Hr as [i Hi].
  destruct (Forall2_lookup_r _ _ _ _ _ Hspec Hi)
    as ([k inf] & Hkv & Hc & Hn & obj & Hobj & Hcls).
  simpl in Hc, Hn, Hobj.
  assert (Hin : (k, inf) ∈ gs) by (eapply list_elem_of_lookup_2; eassumption).
  destruct (entry_key_and_count cols gs k inf Hinv Hin) as (Hk & Hpos).
  split; [lia|].
  exists obj. split; [eapply list_elem_of_lookup_2; eassumption|].
  split; [assumption|].
  destruct (Forall2_lookup_l _ _ _ _ _ Hall Hobj) as (c & Hc' & Hdom).
  rewrite Hc. congruence.
Qed.

Lemma colors_extracted_failed image (objects_data : list obj_data) obj :
  obj ∈ objects_data -> detection_ok kmeans_center image obj = false ->
  colors_extracted kmeans_center image objects_data = None.
Proof.
  intros Hin Hbad.
  destruct (collect_failed kmeans_center image objects_data obj Hin Hbad)
    as [H|(l & H & Hl)]; unfold colors_extracted; rewrite H; [reflexivity|].
  unfold find_similar_objects. now rewrite enumerate_from_None.
Qed.

(** When every detection converts and yields a colour, [colors_extracted]
    returns records whose counts add up to the number of detections; there
    are at most as many records as detections, each counts at least one
    detection, and each carries the class id and the dominant colour of one
    of the detections. *)
Theorem colors_extracted_accounts_for_every_detection
  (image : Image) (objects_data : list obj_data) :
  (forall obj, obj ∈ objects_data -> detection_ok kmeans_center image obj = true) ->
  exists rs,
    colors_extracted kmeans_center image objects_data = Some rs
    /\ result_total rs = length objects_data
    /\ length rs <= length objects_data
    /\ forall r, r ∈ rs ->
         1 <= result_count r
         /\ exists obj, obj ∈ objects_data
              /\ class_id r = obj_class_id obj
              /\ dominant_color_of kmeans_center image obj = Some (result_color r).
Proof.
  intros Hok.
  destruct (colors_extracted_records image objects_data Hok)
    as (cols & gs & rs & Hall & Hinv & Hspec & Hrs).
  destruct (records_total image objects_data cols gs rs Hall Hinv Hspec)
    as [Htot Hlen].
  exists rs. split; [assumption|]. split; [assumption|]. split; [assumption|].
  intros r Hr. now apply (record_origin image objects_data cols gs rs).
Qed.

(** [colors_extracted] returns [None] exactly when some detection fails to
    convert or to yield a colour. *)
Theorem colors_extracted_None_iff (image : Image) (objects_data : list obj_data) :
  colors_extracted kmeans_center image objects_data = None
  <-> exists obj, obj ∈ objects_data
                  /\ detection_ok kmeans_center image obj = false.
Proof.
  split.
  - intros Hnone.
    destruct (decide (Forall (fun obj => detection_ok kmeans_center image obj = true)
                        objects_data)) as [Hall|Hnot].
    + rewrite Forall_forall in Hall.
      destruct (colors_extracted_records image objects_data Hall)
        as (_ & _ & rs & _ & _ & _ & Hrs). congruence.
    + apply not_Forall_Exists in Hnot; [|intros x; apply _].
      apply Exists_exists in Hnot as (obj & Hin & Hbad).
      exists obj. split; [assumption|]. simpl in Hbad.
      now destruct (detection_ok kmeans_center image obj).
  - intros (obj & Hin & Hbad). now apply (colors_extracted_failed image _ obj).
Qed.

End Extraction.

(** * Further properties of the pipeline *)

Section Persistence.

Variable kmeans_center : list Color -> option Color.
Variable predict_objects : Image -> option (list obj_data * gmap Z string).
Variable str_color : Color -> string.

(** [process_image] never removes or changes a row of the table, and it
    leaves the table exactly as it was unless it runs to the end. *)
Theorem process_image_keeps_rows (imread_result : option Image) (db : database) :
  table_rows db
    `prefix_of` table_rows
      (process_image kmeans_center predict_objects str_color imread_result db).1
  /\ ((process_image kmeans_center predict_objects str_color imread_result db).2
      <> Done ->
      (process_image kmeans_center predict_objects str_color imread_result db).1
      = db).
Proof.
  unfold process_image.
  destruct imread_result as [image|]; simpl; [|split; [reflexivity|auto]].
  destruct (predict_objects image) as [[boxes class_names]|]; simpl;
    [|split; [reflexivity|auto]].
  destruct (colors_extracted kmeans_center image boxes) as [rs|]; simpl;
    [|split; [reflexivity|auto]].
  split; [now apply prefix_app_r | congruence].
Qed.

(** [process_image] runs to the end exactly when the image was read, the
    detector answered, and every detection converts and yields a colour. *)
Theorem process_image_Done_iff (imread_result : option Image) (db : database) :
  (process_image kmeans_center predict_objects str_color imread_result db).2 = Done
  <-> exists image boxes class_names,
        imread_result = Some image
        /\ predict_objects image = Some (boxes, class_names)
        /\ forall obj, obj ∈ boxes -> detection_ok kmeans_center image obj = true.
Proof.
  unfold process_image. split.
  - destruct imread_result as [image|]; [|discriminate].
    destruct (predict_objects image) as [[boxes class_names]|] eqn:Hp; [|discriminate].
    destruct (colors_extracted kmeans_center image boxes) as [rs|] eqn:Hc;
      [|discriminate].
    intros _. exists image, boxes, class_names.
    split; [reflexivity|]. split; [exact Hp|].
    intros obj Hin.
    destruct (detection_ok kmeans_center image obj) eqn:Hok; [reflexivity|].
    assert (colors_extracted kmeans_center image boxes = None); [|congruence].
    now apply (colors_extracted_failed kmeans_center image boxes obj).
  - intros (image & boxes & class_names & -> & -> & Hok).
    destruct (colors_extracted_records kmeans_center image boxes Hok)
      as (_ & _ & rs & _ & _ & _ & ->).
    reflexivity.
Qed.




End Persistence.


Lemma colors_extracted_accounts_for_every_detection_witness :
  exists rs,
    colors_extracted mean_center sample_image [left_box; left_box] = Some rs
    /\ result_total rs = 2.
Proof.
  destruct (colors_extracted_accounts_for_every_detection mean_center
              sample_image [left_box; left_box]) as (rs & H1 & H2 & _).
  - intros obj Hin. apply elem_of_cons in Hin as [->|Hin]; [reflexivity|].
    apply elem_of_cons in Hin as [->|Hin]; [reflexivity|].
    now apply elem_of_nil in Hin.
  - exists rs. split; [exact H1 | exact H2].
Defined.

(** * Properties of the packing loop of [predict_objects] *)

Lemma take_4_cases {A} (box : list A) :
  (exists x y w h, take 4 box = [x; y; w; h] /\ 4 <= length box)
  \/ (length box < 4
      /\ forall x y w h, take 4 box <> [x; y; w; h]).
Proof.
  destruct box as [|x [|y [|w [|h rest]]]]; simpl;
    try (right; split; [lia | discriminate]).
  left. exists x, y, w, h. split; [reflexivity | lia].
Qed.

(** The packing loop fails exactly when one of the boxes that [zip] pairs
    with a class id has fewer than four components. When it succeeds there
    is one detection per pair, carrying that class id and the first four
    components of that box; its box has exactly four components, so the
    conversion to pixel coordinates fails on it exactly when one of the four
    floats handed to [int] is an infinity or a NaN. *)
Theorem pack_detections_spec (boxes_xywhn : list (list spec_float))
  (class_ids : list Z) :
  (pack_detections boxes_xywhn class_ids = None
   <-> exists i box, i < length class_ids
                     /\ boxes_xywhn !! i = Some box /\ length box < 4)
  /\ forall ds, pack_detections boxes_xywhn class_ids = Some ds ->
       length ds = length boxes_xywhn `min` length class_ids
       /\ forall i obj, ds !! i = Some obj ->
            class_ids !! i = Some (obj_class_id obj)
            /\ (exists box, boxes_xywhn !! i = Some box
                            /\ obj_bbox obj = take 4 box)
            /\ length (obj_bbox obj) = 4
            /\ forall W H,
                 extract_bbox_coordinates (obj_bbox obj) W H = None
                 <-> exists v, v ∈ corner_values (obj_bbox obj) W H
                               /\ f64.finite v = false.
Proof.
  revert class_ids.
  induction boxes_xywhn as [|box boxes IH]; intros class_ids.
  - simpl. split.
    + split; [discriminate|]. intros (i & b & _ & Hb & _). discriminate.
    + intros ds [= <-]. split; [reflexivity|]. intros i obj Hi. discriminate.
  - destruct class_ids as [|cid ids]; simpl.
    + split.
      * split; [discriminate|]. intros (i & b & Hi & _). simpl in Hi. lia.
      * intros ds [= <-]. split; [reflexivity|]. intros i obj Hi. discriminate.
    + destruct (IH ids) as [IHnone IHsome].
      destruct (take_4_cases box) as [(x & y & w & h & Ht & Hlen)|[Hlen Hno]].
      * rewrite Ht.
        destruct (pack_detections boxes ids) as [ds'|] eqn:Hp; simpl.
        -- split.
           ++ split; [discriminate|]. intros (i & b & Hi & Hb & Hbl).
              destruct i as [|i]; simpl in Hb.
              ** injection Hb as <-. lia.
              ** assert (Some ds' = None); [|discriminate].
                 apply IHnone. exists i, b. repeat split; [lia|assumption|assumption].
           ++ intros ds [= <-]. destruct (IHsome ds' eq_refl) as [Hl Hall].
              split; [simpl; lia|].
              intros [|i] obj Hi; simpl in Hi.
              ** injection Hi as <-. simpl. split; [reflexivity|].
                 split; [exists box; auto|]. split; [reflexivity|].
                 intros W H. apply extract_None_iff.
              ** apply (Hall i obj Hi).
        -- split; [|discriminate]. split; [|reflexivity]. intros _.
           destruct IHnone as [IHn _].
           destruct (IHn eq_refl) as (i & b & Hi & Hb & Hbl).
           exists (S i), b. repeat split; [lia|assumption|assumption].
      * assert (Hnone : match take 4 box with
                        | [x; y; w; h] =>
                            cons (mkObj cid [x; y; w; h]) <$> pack_detections boxes ids
                        | _ => None
                        end = None).
        { destruct (take 4 box) as [|x [|y [|w [|h [|? ?]]]]] eqn:Ht; try reflexivity.
          exfalso. now apply (Hno x y w h). }
        rewrite Hnone. split; [|discriminate].
        split; [|reflexivity]. intros _.
        exists 0, box. repeat split; [lia|assumption].
Qed.

(** * Boxes with a NaN component *)

Lemma f64_sub_nan_l y : f64.sub S754_nan y = S754_nan.
Proof. reflexivity. Qed.

Lemma f64_sub_nan_r x : f64.sub x S754_nan = S754_nan.
Proof. now destruct x. Qed.

Lemma f64_add_nan_l y : f64.add S754_nan y = S754_nan.
Proof. reflexivity. Qed.

Lemma f64_add_nan_r x : f64.add x S754_nan = S754_nan.
Proof. now destruct x. Qed.

Lemma f64_mul_nan_l y : f64.mul S754_nan y = S754_nan.
Proof. reflexivity. Qed.

Lemma f64_div_nan_l y : f64.div S754_nan y = S754_nan.
Proof. reflexivity. Qed.

(** A box with a NaN component never converts: [int] raises on the NaN
    that reaches it, and the function returns [None]. *)
Theorem nan_box_does_not_convert (yolo_bbox : list spec_float) (W H : Z) :
  S754_nan ∈ yolo_bbox ->
  extract_bbox_coordinates yolo_bbox W H = None.
Proof.
  intros Hin.
  destruct yolo_bbox as [|x [|y [|w [|h [|? ?]]]]]; try reflexivity.
  unfold extract_bbox_coordinates.
  repeat (apply elem_of_cons in Hin as [<-|Hin]);
    [| | | |now apply elem_of_nil in Hin];
    rewrite ?f64_div_nan_l, ?f64_sub_nan_l, ?f64_sub_nan_r,
      ?f64_add_nan_l, ?f64_add_nan_r, ?f64_mul_nan_l; simpl;
    repeat match goal with
           | |- context [f64.to_int ?e] =>
               lazymatch e with
               | S754_nan => fail
               | _ => destruct (f64.to_int e); simpl
               end
           end; reflexivity.
Qed.

Lemma nan_box_does_not_convert_witness :
  extract_bbox_coordinates [f64.half; f64.half; S754_nan; f64.half] 100 100
  = None.
Proof.
  apply nan_box_does_not_convert.
  apply elem_of_cons. right. apply elem_of_cons. right. apply elem_of_cons. now left.
Defined.

(** * The dominant colour with one cluster *)

Section KMeansFacts.

Variable converged : list spec_float -> list spec_float -> bool.
Variable more_compact : list spec_float -> list spec_float -> bool.

Lemma iterate_from_centroid fuel samples :
  iterate converged fuel (centroid samples) samples = centroid samples.
Proof.
  induction fuel as [|fuel IH]; simpl; [reflexivity|].
  now destruct (converged _ _).
Qed.

(** An attempt ends on the centre of the samples, whatever its initial
    centre and whatever the stopping test answers. *)
Lemma iterate_centroid fuel init samples :
  iterate converged (S fuel) init samples = centroid samples.
Proof.
  simpl. destruct (converged _ _); [reflexivity|apply iterate_from_centroid].
Qed.

Lemma best_all_equal r (results : list (list spec_float)) :
  results <> [] -> Forall (fun r' => r' = r) results ->
  best more_compact results = Some r.
Proof.
  induction results as [|x rest IH]; intros Hne Hall; [congruence|].
  apply Forall_cons in Hall as [-> Hall]. simpl.
  destruct rest as [|y rest']; [reflexivity|].
  rewrite IH by (auto; discriminate). now destruct (more_compact r r).
Qed.

Lemma cv2_kmeans_centroid inits region :
  inits <> [] -> region <> [] ->
  cv2_kmeans converged more_compact inits region
  = Some (centroid (samples_of region)).
Proof.
  intros Hi Hr. unfold cv2_kmeans.
  destruct region as [|p region]; [congruence|].
  apply best_all_equal.
  - destruct inits; [congruence|discriminate].
  - apply Forall_forall. intros r Hin. apply list_elem_of_In in Hin.
    apply in_map_iff in Hin as (init & <- & _).
    apply iterate_centroid.
Qed.

End KMeansFacts.

Lemma fold_vec_add_channels (region : list Color) (x y z : spec_float) :
  fold_left vec_add
    (List.map (fun p => [f32.of_Z (ch0 p); f32.of_Z (ch1 p); f32.of_Z (ch2 p)])
       region)
    [x; y; z]
  = [fold_left f32.add (f32.of_Z <$> (ch0 <$> region)) x;
     fold_left f32.add (f32.of_Z <$> (ch1 <$> region)) y;
     fold_left f32.add (f32.of_Z <$> (ch2 <$> region)) z].
Proof.
  revert x y z. induction region as [|p region IH]; intros x y z; [reflexivity|].
  simpl. apply IH.
Qed.

(** On two pixels or more the centre is made of the three float32
    channel means. *)
Lemma centroid_channels (region : list Color) :
  2 <= length region ->
  centroid (samples_of region)
  = [mean32 (ch0 <$> region); mean32 (ch1 <$> region); mean32 (ch2 <$> region)].
Proof.
  intros Hlen.
  destruct region as [|p [|q region]]; simpl in Hlen; [lia|lia|].
  unfold centroid, mean32.
  change (samples_of (p :: q :: region))
    with (List.map (fun p => [f32.of_Z (ch0 p); f32.of_Z (ch1 p); f32.of_Z (ch2 p)])
            (p :: q :: region)).
  rewrite length_map, !length_fmap.
  change (length (hd [] _)) with 3.
  change (replicate 3 (f32.of_Z 0)) with [f32.of_Z 0; f32.of_Z 0; f32.of_Z 0].
  rewrite fold_vec_add_channels. reflexivity.
Qed.

(** C9. With one cluster the extraction does not depend on the initial
    centres, the stopping test or the comparison of attempts: two calls on
    the same region return the same components. On a region of two pixels or
    more these are the three channel means computed in float32 (the running
    sum times the reciprocal of the pixel count), truncated. *)
Theorem C9_one_cluster_is_deterministic
  (converged more_compact : list spec_float -> list spec_float -> bool)
  (inits inits' : list (list spec_float)) (region : list Color) :
  inits <> [] -> inits' <> [] ->
  find_dominant_colors_cv2 converged more_compact inits region
  = find_dominant_colors_cv2 converged more_compact inits' region
  /\ (2 <= length region ->
      find_dominant_colors_cv2 converged more_compact inits region
      = Some [f32.to_uint8 (mean32 (ch0 <$> region));
              f32.to_uint8 (mean32 (ch1 <$> region));
              f32.to_uint8 (mean32 (ch2 <$> region))]).
Proof.
  intros Hi Hi'. unfold find_dominant_colors_cv2. split.
  - destruct region as [|p region]; [reflexivity|].
    rewrite !cv2_kmeans_centroid by (auto; discriminate). reflexivity.
  - intros Hlen.
    rewrite cv2_kmeans_centroid by (auto; intros ->; simpl in Hlen; lia).
    now rewrite centroid_channels.
Qed.

(** Two runs on 55 white pixels from different initial centres. *)
Lemma C9_one_cluster_is_deterministic_witness :
  find_dominant_colors_cv2 sample_converged sample_more_compact sample_inits
    (replicate 55 white)
  = find_dominant_colors_cv2 sample_converged sample_more_compact sample_inits'
      (replicate 55 white).
Proof.
  destruct (C9_one_cluster_is_deterministic sample_converged sample_more_compact
              sample_inits sample_inits' (replicate 55 white)) as [Hsame _].
  - unfold sample_inits. simpl. discriminate.
  - unfold sample_inits'. simpl. discriminate.
  - exact Hsame.
Defined.

(** C9, the truncated exact mean. On 55 pixels of value 255 the float32
    centre is just below 255 and the result is 254 in every channel, where the
    exact mean is 255. On a single pixel the three channel values are taken
    as three samples and the result has one component. *)
Lemma C9_truncated_mean_counterexample :
  ~ returns_truncated_mean sample_converged sample_more_compact sample_inits
      (replicate 55 white)
  /\ find_dominant_colors_cv2 sample_converged sample_more_compact sample_inits
       (replicate 55 white) = Some [254; 254; 254]%Z
  /\ truncated_exact_mean (replicate 55 white) = Some [255; 255; 255]%Z
  /\ ~ returns_truncated_mean sample_converged sample_more_compact sample_inits
         [mkColor 10 20 33].
Proof.
  unfold returns_truncated_mean.
  split; [|split; [|split]]; vm_compute; (discriminate || reflexivity).
Qed.
